(** * generate_problem.py: a shallow embedding of the MSCFLP instance generator

    The development follows [src/generate_problem.py] from top to
    bottom.  The single Python function [generate_problem_file] is cut into
    the phases it is made of, one Rocq definition per loop of the source:

    - lines 34-36   the services/points check,
    - lines 45-55   placement of the nodes by rejection sampling,
    - line  57      [nx.random_geometric_graph],
    - lines 59-67   removal of the edges inside a class,
    - lines 69-108  the two repair passes,
    - lines 141-154 the assignment of services,
    - lines 156-172 sorting, costs and the final table.

    Conventions of the model.

    - Floating-point numbers are represented by the rationals they denote
      and arithmetic on them is exact.  [math.hypot] is never computed:
      the two comparisons the source makes with it are expressed on the
      squared distance.
    - [np.random] is a global generator.  Its state is threaded through
      the model as a [RandomState]: a tape of raw draws and a cursor.
    - The [while] loops of the source have no bound.  Each loop of the
      model runs on fuel and answers [Timeout] when the fuel is used up,
      which stands for a run that is still looping.
    - Exceptions of the Python run time are outcomes ([Raise]). *)

From Stdlib Require Import ZArith QArith Lia List Bool Sorted.
From stdpp Require Import gmap list fin_maps.

Set Default Proof Using "Type".
Local Open Scope nat_scope.

(** ** Coordinates and the two distance tests *)

Definition coord : Type := (Q * Q)%type.

(** Squared length of [p1 - p0]; line 19 is its square root. *)
Definition dist2 (p0 p1 : coord) : Q :=
  ((fst p1 - fst p0) * (fst p1 - fst p0) + (snd p1 - snd p0) * (snd p1 - snd p0))%Q.

Definition Qlt_bool (a b : Q) : bool := negb (Qle_bool b a).

(** [distance(p0, p1) < m] (lines 49, 79, 99).  A distance is never below
    a bound that is not positive. *)
Definition distance_lt (p0 p1 : coord) (m : Q) : bool :=
  Qlt_bool 0 m && Qlt_bool (dist2 p0 p1) (m * m).

(** [distance(p0, p1) <= r] (lines 87, 107, and the radius test of
    [random_geometric_graph]). *)
Definition distance_le (p0 p1 : coord) (r : Q) : bool :=
  Qle_bool 0 r && Qle_bool (dist2 p0 p1) (r * r).

(** ** The global generator [np.random] *)

Record RandomState : Type := mkRandomState {
  tape : nat -> N;
  cursor : nat
}.

Definition advance (s : RandomState) : RandomState :=
  mkRandomState (tape s) (S (cursor s)).

Definition two53 : positive := 9007199254740992.

(** A double drawn by [np.random.random()] is [k / 2^53] with
    [0 <= k < 2^53]. *)
Definition to_unit_interval (raw : N) : Q :=
  (Z.of_N (raw mod Npos two53) # two53).

(** ** Outcomes and the monad of the generator *)

Inductive exn : Type :=
| SystemExit          (* exit() *)
| ZeroDivisionError
| KeyError
| ValueError.

Inductive outcome (A : Type) : Type :=
| Ret (a : A)
| Raise (e : exn)
| Timeout.
Arguments Ret {A} a.
Arguments Raise {A} e.
Arguments Timeout {A}.

Definition M (A : Type) : Type := RandomState -> outcome A * RandomState.

Definition ret {A} (a : A) : M A := fun s => (Ret a, s).
Definition raise {A} (e : exn) : M A := fun s => (Raise e, s).
Definition timeout {A} : M A := fun s => (Timeout, s).
Definition bind {A B} (m : M A) (k : A -> M B) : M B :=
  fun s =>
    match m s with
    | (Ret a, s') => k a s'
    | (Raise e, s') => (Raise e, s')
    | (Timeout, s') => (Timeout, s')
    end.

Notation "'let*' x ':=' m 'in' k" := (bind m (fun x => k))
  (at level 10, x pattern, m at level 100, k at level 200).

Definition from_option {A} (o : option A) : M A :=
  match o with
  | Some a => ret a
  | None => raise KeyError
  end.

(** [np.random.random()] *)
Definition random : M Q :=
  fun s => (Ret (to_unit_interval (tape s (cursor s))), advance s).

(** [np.random.randint(high)]: an integer of [[0, high)]; a bound that is
    not positive is a [ValueError]. *)
Definition randint (high : Z) : M Z :=
  fun s =>
    if (0 <? high)%Z
    then (Ret (Z.of_N (tape s (cursor s)) mod high)%Z, advance s)
    else (Raise ValueError, s).

(** [np.random.random_sample(n)]: [n] draws; a negative size is a
    [ValueError]. *)
Fixpoint random_draws (n : nat) : M (list Q) :=
  match n with
  | O => ret []
  | S n' => let* x := random in let* xs := random_draws n' in ret (x :: xs)
  end.

Definition random_sample (n : Z) : M (list Q) :=
  if (n <? 0)%Z then raise ValueError else random_draws (Z.to_nat n).

(** [(np.random.random(), np.random.random())] (lines 46, 76, 96) *)
Definition draw_coord : M coord :=
  let* x := random in let* y := random in ret (x, y).

(** Left fold of an effectful step over a list: a [for] loop. *)
Fixpoint for_each {A B} (f : B -> A -> M B) (l : list A) (b : B) : M B :=
  match l with
  | [] => ret b
  | a :: l' => let* b' := f b a in for_each f l' b'
  end.

(** ** Lines 45-55: placement of the nodes *)

(** The [for c in coords.values()] scan (lines 47-51, 77-81, 97-101). *)
Definition too_close (minimum_distance : Q) (coords : gmap nat coord)
    (new_coord : coord) : bool :=
  existsb (fun c => distance_lt c new_coord minimum_distance)
          (snd <$> map_to_list coords).

Fixpoint sample_coords (fuel : nat) (total_nodes : nat) (minimum_distance : Q)
    (coords : gmap nat coord) (node_idx : nat) : M (gmap nat coord) :=
  match fuel with
  | O => timeout
  | S fuel' =>
      if node_idx <? total_nodes then
        let* new_coord := draw_coord in
        if too_close minimum_distance coords new_coord
        then sample_coords fuel' total_nodes minimum_distance coords node_idx
        else sample_coords fuel' total_nodes minimum_distance
               (<[node_idx := new_coord]> coords) (S node_idx)
      else ret coords
  end.

(** ** The graph: [nx.Graph] *)

(** [adj] is the adjacency dictionary ([G[u]] is [adj[u]], the neighbours
    in insertion order); [node] holds the ['pos'] attribute of
    [G.node[u]]. *)
Record Graph : Type := mkGraph {
  adj : gmap nat (list nat);
  node : gmap nat coord
}.

Definition neighbors (G : Graph) (u : nat) : list nat :=
  default [] (adj G !! u).

Definition degree (G : Graph) (u : nat) : nat := length (neighbors G u).

(** [G.has_edge(u, v)] *)
Definition has_edge (G : Graph) (u v : nat) : bool :=
  bool_decide (v ∈ neighbors G u).

Definition add_neighbor (v : nat) (nb : list nat) : list nat :=
  if bool_decide (v ∈ nb) then nb else nb ++ [v].

(** [G.add_edge(u, v)]: both end points become nodes if they are not, and
    each is entered in the other's adjacency. *)
Definition add_edge (u v : nat) (G : Graph) : Graph :=
  let a1 := <[u := add_neighbor v (default [] (adj G !! u))]> (adj G) in
  let a2 := <[v := add_neighbor u (default [] (a1 !! v))]> a1 in
  mkGraph a2 (node G).

Definition drop_neighbor (v : nat) (nb : list nat) : list nat :=
  filter (fun x => x ≠ v) nb.

(** [G.remove_edge(u, v)] *)
Definition remove_edge (u v : nat) (G : Graph) : Graph :=
  mkGraph (alter (drop_neighbor u) v (alter (drop_neighbor v) u (adj G))) (node G).

(** [node['pos'] = new_coord] (lines 83, 103) *)
Definition set_pos (u : nat) (c : coord) (G : Graph) : Graph :=
  mkGraph (adj G) (<[u := c]> (node G)).

(** [G[u]]: a [KeyError] when [u] is not a node. *)
Definition get_adj (G : Graph) (u : nat) : M (list nat) :=
  from_option (adj G !! u).

(** [G.node[u]['pos']] *)
Definition get_pos (G : Graph) (u : nat) : M coord :=
  from_option (node G !! u).

(** ** Line 57: [nx.random_geometric_graph(total_nodes, radius, pos=coords)]

    The function belongs to networkx; the model follows its
    documentation: it creates the nodes [0 .. n-1], stores [pos] as their
    ['pos'] attribute and joins every two distinct nodes whose distance is
    at most [radius], whatever their class. *)
Definition empty_graph (n : nat) (pos : gmap nat coord) : Graph :=
  mkGraph (list_to_map ((fun i => (i, [])) <$> seq 0 n)) pos.

Definition within_radius (radius : Q) (pos : gmap nat coord) (u v : nat) : bool :=
  match pos !! u, pos !! v with
  | Some pu, Some pv => distance_le pu pv radius
  | _, _ => false
  end.

Definition geometric_pairs (n : nat) (radius : Q) (pos : gmap nat coord)
    : list (nat * nat) :=
  u ← seq 0 n;
  v ← seq 0 n;
  if (u <? v) && within_radius radius pos u v then [(u, v)] else [].

Definition random_geometric_graph (n : nat) (radius : Q) (pos : gmap nat coord)
    : Graph :=
  foldl (fun G e => add_edge (fst e) (snd e) G) (empty_graph n pos)
        (geometric_pairs n radius pos).

(** ** Lines 59-67: removal of the edges inside one class

    [nodes] is [range(locations)] in the first loop nest and
    [range(locations, total_nodes)] in the second. *)
Definition remove_edges_within (nodes : list nat) (G : Graph) : Graph :=
  foldl (fun G i =>
           foldl (fun G j => if has_edge G i j then remove_edge i j G else G)
                 G nodes)
        G nodes.

(** ** Lines 69-108: the two repair passes *)

Record State : Type := mkState {
  coords : gmap nat coord;
  G : Graph
}.

(** Lines 73-81 and 93-101: draw until the draw is far enough from every
    coordinate of [coords]. *)
Fixpoint resample (fuel : nat) (minimum_distance : Q) (coords : gmap nat coord)
    : M coord :=
  match fuel with
  | O => timeout
  | S fuel' =>
      let* new_coord := draw_coord in
      if too_close minimum_distance coords new_coord
      then resample fuel' minimum_distance coords
      else ret new_coord
  end.

(** The class of the node under repair decides the order of the two
    arguments of [G.add_edge(loc_idx, dem_idx)]. *)
Inductive node_class : Type := Location | DemandPoint.

Definition link (cls : node_class) (idx other : nat) (G : Graph) : Graph :=
  match cls with
  | DemandPoint => add_edge other idx G   (* line 88 *)
  | Location => add_edge idx other G      (* line 108 *)
  end.

(** Lines 85-88 and 105-108: the "update neighbors" loop over the nodes of
    the other class. *)
Definition update_neighbors (cls : node_class) (service_range : Q)
    (others : list nat) (idx : nat) (new_coord : coord) (G : Graph) : M Graph :=
  for_each (fun G other =>
              let* p := get_pos G other in
              if distance_le p new_coord service_range
              then ret (link cls idx other G)
              else ret G)
           others G.

(** Lines 71-88 and 91-108: the [while len(G[idx]) == 0] loop of one node.
    [budget] is the fuel of the inner sampling loop. *)
Fixpoint relocate (fuel : nat) (budget : nat) (cls : node_class)
    (service_range minimum_distance : Q) (others : list nat) (idx : nat)
    (st : State) : M State :=
  match fuel with
  | O => timeout
  | S fuel' =>
      let* nb := get_adj (G st) idx in
      if length nb =? 0 then
        let* new_coord := resample budget minimum_distance (coords st) in
        let coords' := <[idx := new_coord]> (coords st) in
        let* G' := update_neighbors cls service_range others idx new_coord
                     (set_pos idx new_coord (G st)) in
        relocate fuel' budget cls service_range minimum_distance others idx
                 (mkState coords' G')
      else ret st
  end.

(** One iteration of the [for] loops of lines 69 and 89; [node = G.node[idx]]
    (lines 70, 90) needs [idx] to be a node. *)
Definition repair_node (budget : nat) (cls : node_class)
    (service_range minimum_distance : Q) (others : list nat)
    (st : State) (idx : nat) : M State :=
  let* _ := get_adj (G st) idx in
  relocate budget budget cls service_range minimum_distance others idx st.

Definition repair_pass (budget : nat) (cls : node_class)
    (service_range minimum_distance : Q) (nodes others : list nat)
    (st : State) : M State :=
  for_each (repair_node budget cls service_range minimum_distance others) nodes st.

(** Lines 69-108: demand points first, then locations. *)
Definition repair (budget : nat) (service_range minimum_distance : Q)
    (locations points : nat) (st : State) : M State :=
  let* st1 := repair_pass budget DemandPoint service_range minimum_distance
                (seq locations points) (seq 0 locations) st in
  repair_pass budget Location service_range minimum_distance
    (seq 0 locations) (seq locations points) st1.

(** ** Lines 134-154: assignment of the services *)

Record ServiceRecord : Type := mkRecord {
  service : Z;
  location : nat;
  point : nat
}.

(** The triplets appended for one demand point (lines 143-147). *)
Definition triplets (service_requested : Z) (locations dem_idx : nat)
    (locs : list nat) : list ServiceRecord :=
  (fun loc => mkRecord service_requested loc (dem_idx - locations)) <$> locs.

Record Assigner : Type := mkAssigner {
  rows : list ServiceRecord;
  service_requested : Z;
  all_services_requested : bool
}.

(** The body of the loop of line 141. *)
Definition assign_step (services : Z) (locations : nat) (G : Graph)
    (a : Assigner) (dem_idx : nat) : M Assigner :=
  let* locs := get_adj G dem_idx in
  let rows' := rows a ++ triplets (service_requested a) locations dem_idx locs in
  if negb (all_services_requested a) then
    if (service_requested a =? services - 1)%Z
    then ret (mkAssigner rows' (service_requested a) true)
    else ret (mkAssigner rows' (service_requested a + 1)%Z false)
  else
    let* r := randint services in
    ret (mkAssigner rows' r true).

Definition assign_services (services : Z) (locations points : nat) (G : Graph)
    : M (list ServiceRecord) :=
  let* a := for_each (assign_step services locations G)
              (seq locations points) (mkAssigner [] 0%Z false) in
  ret (rows a).

(** ** Lines 156-172: sorting, costs and the final table *)

(** The key [by=['service', 'location', 'point']] of line 160, compared
    column after column. *)
Definition record_leb (a b : ServiceRecord) : bool :=
  if (service a <? service b)%Z then true
  else if (service b <? service a)%Z then false
  else if location a <? location b then true
  else if location b <? location a then false
  else point a <=? point b.

Fixpoint insert_record (r : ServiceRecord) (l : list ServiceRecord)
    : list ServiceRecord :=
  match l with
  | [] => [r]
  | x :: l' => if record_leb r x then r :: l else x :: insert_record r l'
  end.

(** [data.sort_values(by=[...]).reset_index(drop=True)] *)
Definition sort_values (l : list ServiceRecord) : list ServiceRecord :=
  foldr insert_record [] l.

(** [.astype(int)]: truncation towards zero. *)
Definition Qtrunc (q : Q) : Z := (Qnum q ÷ Z.pos (Qden q))%Z.

(** [(r[0] + (r[1] - r[0]) * np.random.random_sample(n)).astype(int)]
    (lines 164, 167) *)
Definition costs (lo hi : Z) (n : Z) : M (list Z) :=
  let* us := random_sample n in
  ret ((fun u => Qtrunc (inject_Z lo + inject_Z (hi - lo) * u)) <$> us).

(** One row of [final_data]; an empty cell is [None]. *)
Record Row : Type := mkRow {
  row_service : option Z;
  row_location : option nat;
  row_point : option nat;
  row_opening_costs : option Z;
  row_equip_costs : option Z
}.

(** [pd.concat([sorted_data, data_open, data_equip], axis = 1)]: the three
    frames are indexed [0, 1, ...]; they are aligned on that index, and a
    frame that is shorter than the longest one leaves its cells empty. *)
Definition concat_columns (sorted_data : list ServiceRecord)
    (opening_costs equip_costs : list Z) : list Row :=
  (fun i => mkRow (service <$> sorted_data !! i)
                  (location <$> sorted_data !! i)
                  (point <$> sorted_data !! i)
                  (opening_costs !! i)
                  (equip_costs !! i))
  <$> seq 0 (length sorted_data `max` (length opening_costs `max` length equip_costs)).

(** ** [generate_problem_file] *)

Section Generator.

(** [cube_root n] is the double [n ** (1.0 / 3.0)] of line 41. *)
Variable cube_root : nat -> Q.

(** [budget] is the fuel handed to every [while] loop.  The graph after
    the repair is returned with the table, so that statements can speak
    about both; the centrality diagnostics of lines 109-119 and the
    drawing of lines 121-126 only read [G] and are left out. *)
Definition generate (budget : nat) (services : Z) (locations points : nat)
    (service_range_factor : Q) : M (State * list ServiceRecord * list Row) :=
  if (Z.of_nat points <? services)%Z then raise SystemExit          (* 34-36 *)
  else
    let total_nodes := locations + points in
    if Qeq_bool (cube_root locations) 0 then raise ZeroDivisionError (* 41 *)
    else
      let service_range := (service_range_factor / cube_root locations)%Q in
      let minimum_distance := (0.1 * service_range)%Q in
      let* coords := sample_coords budget total_nodes minimum_distance ∅ 0 in
      let G0 := random_geometric_graph total_nodes service_range coords in
      let G1 := remove_edges_within (seq 0 locations) G0 in
      let G2 := remove_edges_within (seq locations points) G1 in
      let* st := repair budget service_range minimum_distance locations points
                   (mkState coords G2) in
      let* data := assign_services services locations points (G st) in
      let sorted_data := sort_values data in
      let* opening_costs_list := costs 4000 5000 (Z.of_nat locations) in
      let* equip_costs_list := costs 200 500 services in
      ret (st, data,
           concat_columns sorted_data opening_costs_list equip_costs_list).

Definition generate_problem_file (budget : nat) (services : Z)
    (locations points : nat) (service_range_factor : Q) : M (list Row) :=
  let* r := generate budget services locations points service_range_factor in
  ret (snd r).

End Generator.

(** ** Generators for the worked runs *)

(** The generator that yields the raw draws of [l] and then [0] for ever. *)
Definition tape_of (l : list N) : nat -> N := fun i => nth i l 0%N.
Definition start (l : list N) : RandomState := mkRandomState (tape_of l) 0.

(** The raw draw of the double [0.5]. *)
Definition half : N := 4503599627370496.

(** [n ** (1.0 / 3.0)] at [n = 0] and [n = 1], the numbers of locations of
    the worked runs. *)
Definition unit_root : nat -> Q := fun n => if n =? 0 then 0%Q else 1%Q.

(** * Properties *)

(** ** The monad *)

Lemma bind_Ret {A B} (m : M A) (k : A -> M B) s b s' :
  bind m k s = (Ret b, s') ->
  exists a s1, m s = (Ret a, s1) /\ k a s1 = (Ret b, s').
Proof.
  unfold bind. destruct (m s) as [[a|e|] s1]; intros H; try discriminate.
  by exists a, s1.
Qed.

Lemma from_option_Ret {A} (o : option A) s a s' :
  from_option o s = (Ret a, s') -> o = Some a /\ s' = s.
Proof. destruct o; inversion 1; auto. Qed.

Lemma get_adj_Ret G0 u s nb s' :
  get_adj G0 u s = (Ret nb, s') -> neighbors G0 u = nb /\ s' = s.
Proof.
  intros [H ->]%from_option_Ret. unfold neighbors. by rewrite H.
Qed.

Lemma for_each_app {A B} (f : B -> A -> M B) l1 l2 b s :
  for_each f (l1 ++ l2) b s = bind (for_each f l1 b) (for_each f l2) s.
Proof.
  revert b s. induction l1 as [|a l1 IH]; intros b s; simpl.
  - reflexivity.
  - unfold bind. destruct (f b a s) as [[b'|e|] s1]; auto.
Qed.

(** An invariant of the loop body is an invariant of the loop. *)
Lemma for_each_invariant {A B} (f : B -> A -> M B) (I : B -> Prop) l :
  (forall b a s b' s', a ∈ l -> I b -> f b a s = (Ret b', s') -> I b') ->
  forall b s b' s', I b -> for_each f l b s = (Ret b', s') -> I b'.
Proof.
  induction l as [|a l IH]; intros Hf b s b' s' Hb H; simpl in H.
  - inversion H; subst; auto.
  - apply bind_Ret in H as (b1 & s1 & H1 & H2).
    eapply IH; [| |exact H2].
    + intros; eapply Hf; eauto. rewrite elem_of_cons; auto.
    + eapply Hf; eauto. rewrite elem_of_cons; auto.
Qed.

(** ** Edges *)

Definition edge (G0 : Graph) (u v : nat) : Prop := v ∈ neighbors G0 u.

Lemma elem_of_add_neighbor x v nb : x ∈ add_neighbor v nb <-> x ∈ nb \/ x = v.
Proof.
  unfold add_neighbor. case_bool_decide.
  - split; [auto|]. intros [?| ->]; auto.
  - rewrite elem_of_app, list_elem_of_singleton. tauto.
Qed.

Lemma NoDup_add_neighbor v nb : NoDup nb -> NoDup (add_neighbor v nb).
Proof.
  intros H. unfold add_neighbor. case_bool_decide; auto.
  apply NoDup_app. split; [auto|]. split.
  - intros x Hx ->%list_elem_of_singleton. contradiction.
  - apply NoDup_singleton.
Qed.

Lemma edge_add_edge u v G0 w x :
  edge (add_edge u v G0) w x <-> edge G0 w x \/ (w = u /\ x = v) \/ (w = v /\ x = u).
Proof.
  unfold edge, neighbors, add_edge; simpl.
  destruct (decide (w = v)) as [->|Hv].
  - rewrite lookup_insert_eq; simpl. rewrite elem_of_add_neighbor.
    destruct (decide (u = v)) as [->|Hu].
    + rewrite lookup_insert_eq; simpl. rewrite elem_of_add_neighbor. tauto.
    + rewrite lookup_insert_ne by done. intuition congruence.
  - rewrite lookup_insert_ne by done.
    destruct (decide (w = u)) as [->|Hu].
    + rewrite lookup_insert_eq; simpl. rewrite elem_of_add_neighbor.
      intuition congruence.
    + rewrite lookup_insert_ne by done. intuition congruence.
Qed.

Lemma elem_of_drop_neighbor x v nb : x ∈ drop_neighbor v nb <-> x ∈ nb /\ x ≠ v.
Proof. unfold drop_neighbor. rewrite list_elem_of_filter. tauto. Qed.

Lemma neighbors_remove_edge u v G0 w :
  neighbors (remove_edge u v G0) w =
  (if decide (v = w) then drop_neighbor u else id)
    ((if decide (u = w) then drop_neighbor v else id) (neighbors G0 w)).
Proof.
  unfold neighbors, remove_edge; simpl.
  destruct (decide (v = w)) as [->|Hv];
    [rewrite lookup_alter_eq | rewrite lookup_alter_ne by done];
    (destruct (decide (u = w)) as [->|Hu];
     [rewrite lookup_alter_eq | rewrite lookup_alter_ne by done]);
    destruct (adj G0 !! w); reflexivity.
Qed.

Lemma edge_remove_edge u v G0 w x :
  edge (remove_edge u v G0) w x <->
  edge G0 w x /\ ~ (w = u /\ x = v) /\ ~ (w = v /\ x = u).
Proof.
  unfold edge. rewrite neighbors_remove_edge.
  destruct (decide (v = w)), (decide (u = w)); simpl;
    rewrite ?elem_of_drop_neighbor; subst; intuition congruence.
Qed.


Lemma degree_pos G0 u : 1 ≤ degree G0 u <-> exists v, edge G0 u v.
Proof.
  unfold degree, edge. destruct (neighbors G0 u) as [|v nb]; simpl.
  - split; [lia|]. intros [v Hv]. by apply elem_of_nil in Hv.
  - split; [|lia]. intros _. exists v. rewrite elem_of_cons; auto.
Qed.

(** The neighbour lists are duplicate free (they are the keys of a
    dictionary) and adjacency is symmetric. *)
Definition wf (G0 : Graph) : Prop :=
  (forall u, NoDup (neighbors G0 u)) /\ (forall u v, edge G0 u v -> edge G0 v u).

Lemma NoDup_neighbors_add_edge u v G0 :
  (forall w, NoDup (neighbors G0 w)) -> forall w, NoDup (neighbors (add_edge u v G0) w).
Proof.
  intros H w. unfold neighbors, add_edge in *; simpl.
  destruct (decide (w = v)) as [->|Hv].
  - rewrite lookup_insert_eq; simpl. apply NoDup_add_neighbor.
    destruct (decide (u = v)) as [->|Hu].
    + rewrite lookup_insert_eq; simpl. apply NoDup_add_neighbor, H.
    + rewrite lookup_insert_ne by done. apply H.
  - rewrite lookup_insert_ne by done.
    destruct (decide (w = u)) as [->|Hu].
    + rewrite lookup_insert_eq; simpl. apply NoDup_add_neighbor, H.
    + rewrite lookup_insert_ne by done. apply H.
Qed.

Lemma wf_add_edge u v G0 : wf G0 -> wf (add_edge u v G0).
Proof.
  intros [Hn Hs]. split; [by apply NoDup_neighbors_add_edge|].
  intros a b. rewrite !edge_add_edge. intros [H|[H|H]]; [left; auto|tauto|tauto].
Qed.

Lemma wf_remove_edge u v G0 : wf G0 -> wf (remove_edge u v G0).
Proof.
  intros [Hn Hs]. split.
  - intros w. rewrite neighbors_remove_edge.
    destruct (decide (v = w)), (decide (u = w)); simpl;
      unfold drop_neighbor; auto using NoDup_filter.
  - intros a b. rewrite !edge_remove_edge. intros (H & H1 & H2).
    split; [auto|]. tauto.
Qed.

(** ** The repair passes: what one relocation changes *)

Definition edges_subset (G1 G2 : Graph) : Prop :=
  forall u v, edge G1 u v -> edge G2 u v.

(** Every edge of [G2] that [G1] lacks joins a node of [nodes] and a node
    of [others]. *)
Definition new_edges_between (nodes others : list nat) (G1 G2 : Graph) : Prop :=
  forall u v, edge G2 u v ->
    edge G1 u v \/ (u ∈ nodes /\ v ∈ others) \/ (v ∈ nodes /\ u ∈ others).

Lemma edges_subset_degree G1 G2 u :
  edges_subset G1 G2 -> 1 ≤ degree G1 u -> 1 ≤ degree G2 u.
Proof. rewrite !degree_pos. intros H [v Hv]. exists v. auto. Qed.

Lemma edge_link cls idx other G0 u v :
  edge (link cls idx other G0) u v <->
  edge G0 u v \/ (u = idx /\ v = other) \/ (u = other /\ v = idx).
Proof. destruct cls; simpl; rewrite edge_add_edge; tauto. Qed.

Lemma wf_link cls idx other G0 : wf G0 -> wf (link cls idx other G0).
Proof. destruct cls; apply wf_add_edge. Qed.

Lemma update_neighbors_spec cls sr others idx new_coord G0 s G' s' :
  update_neighbors cls sr others idx new_coord G0 s = (Ret G', s') ->
  edges_subset G0 G' /\ new_edges_between [idx] others G0 G' /\ (wf G0 -> wf G').
Proof.
  unfold update_neighbors.
  apply (for_each_invariant _
    (fun G1 => edges_subset G0 G1 /\ new_edges_between [idx] others G0 G1
               /\ (wf G0 -> wf G1))).
  - intros G1 other s1 G2 s2 Hin (Hsub & Hnew & Hwf) H.
    apply bind_Ret in H as (p & s3 & _ & H).
    destruct (distance_le p new_coord sr); inversion H; subst; clear H; auto.
    split; [|split].
    + intros u v Huv. apply edge_link. auto.
    + intros u v [Huv|[[-> ->]|[-> ->]]]%edge_link; auto.
      * right; left. rewrite list_elem_of_singleton. auto.
      * right; right. rewrite list_elem_of_singleton. auto.
    + intros Hw. apply wf_link; auto.
  - split; [|split]; auto. { intros u v; auto. } { intros u v; auto. }
Qed.

(** ** Separation of the coordinates *)

Definition separated (minimum_distance : Q) (coords : gmap nat coord) : Prop :=
  forall i j ci cj, i ≠ j -> coords !! i = Some ci -> coords !! j = Some cj ->
    distance_lt ci cj minimum_distance = false.

Lemma dist2_sym p q : (dist2 p q == dist2 q p)%Q.
Proof. unfold dist2. ring. Qed.

Lemma distance_lt_sym p q m : distance_lt p q m = distance_lt q p m.
Proof.
  unfold distance_lt, Qlt_bool. f_equal. f_equal.
  apply eq_true_iff_eq. rewrite !Qle_bool_iff. by rewrite dist2_sym.
Qed.


Lemma too_close_false md (coords : gmap nat coord) new_coord :
  too_close md coords new_coord = false <->
  forall i c, coords !! i = Some c -> distance_lt c new_coord md = false.
Proof.
  unfold too_close. split.
  - intros H i c Hc. apply not_true_is_false. intros Ht.
    assert (existsb (fun c => distance_lt c new_coord md)
                    (snd <$> map_to_list coords) = true) as E; [|congruence].
    apply existsb_exists. exists c. split; [|exact Ht].
    apply list_elem_of_In, list_elem_of_fmap. exists (i, c). split; [done|].
    by apply elem_of_map_to_list.
  - intros H. apply not_true_is_false. intros Ht.
    apply existsb_exists in Ht as (c & Hin & Ht).
    apply list_elem_of_In, list_elem_of_fmap in Hin as ([i c'] & -> & Hin).
    apply elem_of_map_to_list in Hin. simpl in Ht.
    rewrite (H i c' Hin) in Ht. discriminate.
Qed.

Lemma separated_insert md (coords : gmap nat coord) k new_coord :
  separated md coords -> too_close md coords new_coord = false ->
  separated md (<[k := new_coord]> coords).
Proof.
  intros Hsep Hnew i j ci cj Hij Hi Hj.
  rewrite too_close_false in Hnew.
  destruct (decide (k = i)) as [->|Hki].
  - rewrite lookup_insert_eq in Hi. rewrite lookup_insert_ne in Hj by done.
    inversion Hi; subst. rewrite distance_lt_sym. eauto.
  - rewrite lookup_insert_ne in Hi by done.
    destruct (decide (k = j)) as [->|Hkj].
    + rewrite lookup_insert_eq in Hj. inversion Hj; subst. eauto.
    + rewrite lookup_insert_ne in Hj by done. eauto.
Qed.


Lemma draw_coord_Ret s :
  draw_coord s =
  (Ret (to_unit_interval (tape s (cursor s)),
        to_unit_interval (tape s (S (cursor s)))),
   advance (advance s)).
Proof. reflexivity. Qed.

Lemma resample_spec fuel md coords0 s new_coord s' :
  resample fuel md coords0 s = (Ret new_coord, s') ->
  too_close md coords0 new_coord = false.
Proof.
  revert s. induction fuel as [|fuel IH]; intros s H; simpl in H; [discriminate|].
  apply bind_Ret in H as (c & s1 & _ & H).
  destruct (too_close md coords0 c) eqn:E.
  - eauto.
  - inversion H; subst; auto.
Qed.



(** ** One node of a repair pass *)

Lemma relocate_spec fuel budget cls sr md others idx st s st' s' :
  relocate fuel budget cls sr md others idx st s = (Ret st', s') ->
  1 ≤ degree (G st') idx
  /\ edges_subset (G st) (G st')
  /\ new_edges_between [idx] others (G st) (G st')
  /\ (forall j, j ≠ idx -> coords st' !! j = coords st !! j)
  /\ (1 ≤ degree (G st) idx -> st' = st /\ s' = s)
  /\ (separated md (coords st) -> separated md (coords st'))
  /\ (wf (G st) -> wf (G st')).
Proof.
  revert st s. induction fuel as [|fuel IH]; intros st s H; simpl in H;
    [discriminate|].
  apply bind_Ret in H as (nb & s1 & [Hnb ->]%get_adj_Ret & H).
  destruct (length nb =? 0) eqn:Hlen.
  - apply Nat.eqb_eq in Hlen.
    apply bind_Ret in H as (c & s2 & Hc%resample_spec & H).
    apply bind_Ret in H as (G' & s3 & HG' & H).
    apply update_neighbors_spec in HG' as (Hsub & Hnew & Hwf).
    apply IH in H as (Hdeg & Hsub' & Hnew' & Hco & _ & Hsep & Hwf'); simpl in *.
    split; [exact Hdeg|]. split; [|split; [|split; [|split; [|split]]]].
    + intros u v Huv. apply Hsub', Hsub. exact Huv.
    + intros u v Huv. destruct (Hnew' u v Huv) as [Huv'|Huv']; [|auto].
      destruct (Hnew u v Huv') as [?|?]; auto.
    + intros j Hj. rewrite Hco by done. by rewrite lookup_insert_ne.
    + unfold degree. rewrite Hnb. lia.
    + intros Hs. apply Hsep. by apply separated_insert.
    + intros Hw. apply Hwf', Hwf. exact Hw.
  - apply Nat.eqb_neq in Hlen. inversion H; subst; clear H.
    unfold degree. split; [lia|].
    split; [intros u v; auto|]. split; [intros u v; auto|]. auto.
Qed.

Lemma repair_node_spec budget cls sr md others st idx s st' s' :
  repair_node budget cls sr md others st idx s = (Ret st', s') ->
  1 ≤ degree (G st') idx
  /\ edges_subset (G st) (G st')
  /\ new_edges_between [idx] others (G st) (G st')
  /\ (forall j, j ≠ idx -> coords st' !! j = coords st !! j)
  /\ (1 ≤ degree (G st) idx -> st' = st /\ s' = s)
  /\ (separated md (coords st) -> separated md (coords st'))
  /\ (wf (G st) -> wf (G st')).
Proof.
  unfold repair_node. intros H.
  apply bind_Ret in H as (nb & s1 & [_ ->]%get_adj_Ret & H).
  by apply relocate_spec in H.
Qed.

(** ** A whole repair pass *)

Lemma repair_pass_spec budget cls sr md nodes others st s st' s' :
  repair_pass budget cls sr md nodes others st s = (Ret st', s') ->
  (forall u, u ∈ nodes -> 1 ≤ degree (G st') u)
  /\ edges_subset (G st) (G st')
  /\ new_edges_between nodes others (G st) (G st')
  /\ (forall j, j ∉ nodes -> coords st' !! j = coords st !! j)
  /\ (separated md (coords st) -> separated md (coords st'))
  /\ (wf (G st) -> wf (G st')).
Proof.
  unfold repair_pass. revert st s.
  induction nodes as [|idx nodes IH]; intros st s H; simpl in H.
  - inversion H; subst; clear H.
    split; [intros u Hu; by apply elem_of_nil in Hu|].
    split; [intros u v; auto|]. split; [intros u v; auto|]. auto.
  - apply bind_Ret in H as (st1 & s1 & H1 & H2).
    apply repair_node_spec in H1 as (Hdeg & Hsub & Hnew & Hco & _ & Hsep & Hwf).
    apply IH in H2 as (Hdeg' & Hsub' & Hnew' & Hco' & Hsep' & Hwf').
    split; [|split; [|split; [|split; [|split]]]].
    + intros u [->|Hu]%elem_of_cons; [|auto].
      eapply edges_subset_degree; eauto.
    + intros u v Huv. auto.
    + intros u v Huv. setoid_rewrite elem_of_cons.
      destruct (Hnew' u v Huv) as [Huv'|[[? ?]|[? ?]]]; [|auto|auto].
      destruct (Hnew u v Huv') as [?|[[?%list_elem_of_singleton ?]
                                    |[?%list_elem_of_singleton ?]]]; auto.
    + intros j Hj. rewrite elem_of_cons in Hj.
      rewrite Hco', Hco; auto.
    + auto.
    + auto.
Qed.

(** The state in which the repair reaches node [u]: for a demand point,
    the demand points before it have been repaired; for a location, all
    the demand points and the locations before it. *)
Definition reach (budget : nat) (sr md : Q) (locations points : nat) (u : nat)
    (st : State) : M State :=
  if u <? locations then
    let* st1 := repair_pass budget DemandPoint sr md
                  (seq locations points) (seq 0 locations) st in
    repair_pass budget Location sr md (seq 0 u) (seq locations points) st1
  else
    repair_pass budget DemandPoint sr md
      (seq locations (u - locations)) (seq 0 locations) st.

Lemma seq_split_at start len k :
  k < len -> seq start len = seq start k ++ (start + k) :: seq (S (start + k)) (len - S k).
Proof.
  intros Hk. replace len with (k + S (len - S k)) at 1 by lia.
  rewrite seq_app. simpl. reflexivity.
Qed.

(** A pass that has reached a node with an edge leaves the coordinate of
    that node alone, and so does the rest of the pass. *)
Lemma repair_pass_reach budget cls sr md l1 u l2 others st s st' s' :
  repair_pass budget cls sr md (l1 ++ u :: l2) others st s = (Ret st', s') ->
  u ∉ l2 ->
  exists stu su,
    repair_pass budget cls sr md l1 others st s = (Ret stu, su)
    /\ (1 ≤ degree (G stu) u -> coords st' !! u = coords stu !! u).
Proof.
  unfold repair_pass. rewrite for_each_app. intros H Hu.
  apply bind_Ret in H as (stu & su & H1 & H2).
  exists stu, su. split; [exact H1|]. intros Hdeg.
  simpl in H2. apply bind_Ret in H2 as (st2 & s2 & H2 & H3).
  apply repair_node_spec in H2 as (_ & _ & _ & _ & Hsame & _).
  destruct (Hsame Hdeg) as [-> ->].
  apply repair_pass_spec in H3 as (_ & _ & _ & Hco & _). auto.
Qed.


(** ** The graph before the repair *)

Lemma foldl_invariant {A B} (f : B -> A -> B) (I : B -> Prop) l :
  (forall b a, a ∈ l -> I b -> I (f b a)) -> forall b, I b -> I (foldl f b l).
Proof.
  induction l as [|a l IH]; intros Hf b Hb; simpl; [exact Hb|].
  apply IH.
  - intros b' a' Ha'. apply Hf. rewrite elem_of_cons; auto.
  - apply Hf; [rewrite elem_of_cons; auto|exact Hb].
Qed.

(** A property that the step for [a] establishes and that no step
    destroys holds at the end for every element of the list. *)
Lemma foldl_establish {A B} (f : B -> A -> B) (Q : A -> B -> Prop) l :
  (forall b a, Q a (f b a)) ->
  (forall b a a', Q a b -> Q a (f b a')) ->
  forall b a, a ∈ l -> Q a (foldl f b l).
Proof.
  intros Hest Hkeep. induction l as [|x l IH]; intros b a Ha; simpl.
  - by apply elem_of_nil in Ha.
  - apply elem_of_cons in Ha as [->|Ha]; [|by apply IH].
    apply (foldl_invariant f (Q x)); [|apply Hest].
    intros b' a' _. apply Hkeep.
Qed.

Lemma neighbors_empty_graph n pos u : neighbors (empty_graph n pos) u = [].
Proof.
  unfold neighbors, empty_graph; simpl.
  destruct (list_to_map (M := gmap nat (list nat)) ((fun i => (i, [])) <$> seq 0 n) !! u)
    as [l|] eqn:E; [|reflexivity].
  apply elem_of_list_to_map_2 in E.
  apply list_elem_of_fmap in E as (i & E & _). by inversion E.
Qed.

Lemma wf_empty_graph n pos : wf (empty_graph n pos).
Proof.
  split.
  - intros u. rewrite neighbors_empty_graph. apply NoDup_nil_2.
  - intros u v. unfold edge. rewrite neighbors_empty_graph.
    intros H. by apply elem_of_nil in H.
Qed.

Definition nodes_below (n : nat) (G0 : Graph) : Prop :=
  forall u v, edge G0 u v -> u < n /\ v < n.

Lemma elem_of_geometric_pairs n radius pos u v :
  (u, v) ∈ geometric_pairs n radius pos ->
  u < n /\ v < n /\ u < v /\ within_radius radius pos u v = true.
Proof.
  unfold geometric_pairs. intros H.
  apply list_elem_of_bind in H as (u' & H & Hu'%elem_of_seq).
  apply list_elem_of_bind in H as (v' & H & Hv'%elem_of_seq).
  destruct (u' <? v') eqn:Hlt; simpl in H; [|by apply elem_of_nil in H].
  destruct (within_radius radius pos u' v') eqn:Hw; [|by apply elem_of_nil in H].
  apply list_elem_of_singleton in H. inversion H; subst.
  apply Nat.ltb_lt in Hlt. repeat split; auto; lia.
Qed.

Lemma random_geometric_graph_spec n radius pos :
  wf (random_geometric_graph n radius pos)
  /\ nodes_below n (random_geometric_graph n radius pos).
Proof.
  unfold random_geometric_graph.
  apply (foldl_invariant _ (fun G1 => wf G1 /\ nodes_below n G1)).
  - intros G1 [u v] Huv%elem_of_geometric_pairs [Hwf Hbelow]; simpl.
    split; [by apply wf_add_edge|].
    intros a b [Hab|[[-> ->]|[-> ->]]]%edge_add_edge; [auto|lia|lia].
  - split; [apply wf_empty_graph|].
    intros u v. unfold edge. rewrite neighbors_empty_graph.
    intros H. by apply elem_of_nil in H.
Qed.

(** The test and removal of lines 61-62 and 66-67. *)
Definition remove_if_edge (i : nat) (G0 : Graph) (j : nat) : Graph :=
  if has_edge G0 i j then remove_edge i j G0 else G0.

Lemma remove_if_edge_subset i j G0 : edges_subset (remove_if_edge i G0 j) G0.
Proof.
  unfold remove_if_edge. intros u v.
  destruct (has_edge G0 i j); [|auto]. rewrite edge_remove_edge. tauto.
Qed.

Lemma remove_if_edge_gone i j G0 : ~ edge (remove_if_edge i G0 j) i j.
Proof.
  unfold remove_if_edge, has_edge. case_bool_decide as H.
  - rewrite edge_remove_edge. tauto.
  - exact H.
Qed.

Lemma wf_remove_if_edge i j G0 : wf G0 -> wf (remove_if_edge i G0 j).
Proof. unfold remove_if_edge. destruct (has_edge G0 i j); auto using wf_remove_edge. Qed.

Lemma remove_row_spec i nodes G0 :
  edges_subset (foldl (remove_if_edge i) G0 nodes) G0
  /\ (wf G0 -> wf (foldl (remove_if_edge i) G0 nodes)).
Proof.
  apply (foldl_invariant _ (fun G1 => edges_subset G1 G0 /\ (wf G0 -> wf G1))).
  - intros G1 j _ [Hsub Hwf]. split.
    + intros u v Huv%remove_if_edge_subset. auto.
    + intros Hw. apply wf_remove_if_edge. auto.
  - split; [intros u v; auto|auto].
Qed.

Lemma remove_edges_within_spec nodes G0 :
  edges_subset (remove_edges_within nodes G0) G0
  /\ (wf G0 -> wf (remove_edges_within nodes G0))
  /\ (forall i j, i ∈ nodes -> j ∈ nodes ->
        ~ edge (remove_edges_within nodes G0) i j).
Proof.
  unfold remove_edges_within.
  change (fun G1 i => foldl (fun G2 j => if has_edge G2 i j then remove_edge i j G2 else G2)
                        G1 nodes)
    with (fun G1 i => foldl (remove_if_edge i) G1 nodes).
  split; [|split].
  - apply (foldl_invariant _ (fun G1 => edges_subset G1 G0)).
    + intros G1 i _ Hsub u v Huv. apply Hsub.
      by apply (proj1 (remove_row_spec i nodes G1)).
    + intros u v; auto.
  - intros Hwf.
    apply (foldl_invariant _ wf); [|exact Hwf].
    intros G1 i _ Hw. by apply (proj2 (remove_row_spec i nodes G1)).
  - intros i j Hi Hj. revert i Hi.
    apply (foldl_establish _ (fun i G1 => ~ edge G1 i j)).
    + intros G1 i. revert j Hj.
      apply (foldl_establish _ (fun j G2 => ~ edge G2 i j)).
      * intros G2 j. apply remove_if_edge_gone.
      * intros G2 j j' Hn Hc. apply Hn. by apply remove_if_edge_subset in Hc.
    + intros G1 i i' Hn Hc. apply Hn.
      by apply (proj1 (remove_row_spec i' nodes G1)).
Qed.

(** Lines 57-67 together. *)
Definition filtered_graph (locations points : nat) (service_range : Q)
    (coords0 : gmap nat coord) : Graph :=
  remove_edges_within (seq locations points)
    (remove_edges_within (seq 0 locations)
       (random_geometric_graph (locations + points) service_range coords0)).

(** Every edge joins a location and a demand point. *)
Definition bipartite (locations points : nat) (G0 : Graph) : Prop :=
  forall u v, edge G0 u v ->
    (u < locations /\ locations ≤ v < locations + points)
    \/ (v < locations /\ locations ≤ u < locations + points).

Lemma filtered_graph_spec locations points sr coords0 :
  wf (filtered_graph locations points sr coords0)
  /\ bipartite locations points (filtered_graph locations points sr coords0).
Proof.
  unfold filtered_graph.
  set (G0 := random_geometric_graph (locations + points) sr coords0).
  set (G1 := remove_edges_within (seq 0 locations) G0).
  destruct (random_geometric_graph_spec (locations + points) sr coords0)
    as [Hwf0 Hbelow]. fold G0 in Hwf0, Hbelow.
  destruct (remove_edges_within_spec (seq 0 locations) G0) as (Hsub1 & Hwf1 & Hno1).
  destruct (remove_edges_within_spec (seq locations points) G1) as (Hsub2 & Hwf2 & Hno2).
  fold G1 in Hsub1, Hwf1, Hno1.
  split; [auto|].
  intros u v Huv.
  pose proof (Hbelow u v (Hsub1 u v (Hsub2 u v Huv))) as [Hu Hv].
  destruct (decide (u < locations)) as [Hul|Hul], (decide (v < locations)) as [Hvl|Hvl].
  - exfalso. apply (Hno1 u v); [apply elem_of_seq; lia|apply elem_of_seq; lia|auto].
  - left. lia.
  - right. lia.
  - exfalso. apply (Hno2 u v); [apply elem_of_seq; lia|apply elem_of_seq; lia|auto].
Qed.

Lemma repair_bipartite budget sr md locations points st s st' s' :
  repair budget sr md locations points st s = (Ret st', s') ->
  bipartite locations points (G st) -> bipartite locations points (G st').
Proof.
  unfold repair. intros H Hbi.
  apply bind_Ret in H as (st1 & s1 & H1 & H2).
  apply repair_pass_spec in H1 as (_ & _ & Hnew1 & _).
  apply repair_pass_spec in H2 as (_ & _ & Hnew2 & _).
  intros u v Huv.
  destruct (Hnew2 u v Huv) as [Huv1|[[Hu Hv]|[Hv Hu]]].
  - destruct (Hnew1 u v Huv1) as [Huv0|[[Hu Hv]|[Hv Hu]]].
    + auto.
    + apply elem_of_seq in Hu, Hv. right. lia.
    + apply elem_of_seq in Hu, Hv. left. lia.
  - apply elem_of_seq in Hu, Hv. left. lia.
  - apply elem_of_seq in Hu, Hv. right. lia.
Qed.

Lemma repair_wf budget sr md locations points st s st' s' :
  repair budget sr md locations points st s = (Ret st', s') ->
  wf (G st) -> wf (G st').
Proof.
  unfold repair. intros H Hwf.
  apply bind_Ret in H as (st1 & s1 & H1 & H2).
  apply repair_pass_spec in H1 as (_ & _ & _ & _ & _ & Hwf1).
  apply repair_pass_spec in H2 as (_ & _ & _ & _ & _ & Hwf2). auto.
Qed.




(** ** The phases of a completed run *)

Section GeneratorFacts.

Variable cube_root : nat -> Q.

Definition service_range_of (locations : nat) (service_range_factor : Q) : Q :=
  (service_range_factor / cube_root locations)%Q.

Definition minimum_distance_of (locations : nat) (service_range_factor : Q) : Q :=
  (0.1 * service_range_of locations service_range_factor)%Q.

Lemma generate_Ret budget services locations points f s st data table s' :
  generate cube_root budget services locations points f s
  = (Ret (st, data, table), s') ->
  (services <= Z.of_nat points)%Z
  /\ exists coords0 s1 s2 s3 s4 opening equip,
       sample_coords budget (locations + points)
         (minimum_distance_of locations f) ∅ 0 s = (Ret coords0, s1)
       /\ repair budget (service_range_of locations f)
            (minimum_distance_of locations f) locations points
            (mkState coords0
               (filtered_graph locations points (service_range_of locations f) coords0))
            s1 = (Ret st, s2)
       /\ assign_services services locations points (G st) s2 = (Ret data, s3)
       /\ costs 4000 5000 (Z.of_nat locations) s3 = (Ret opening, s4)
       /\ costs 200 500 services s4 = (Ret equip, s')
       /\ table = concat_columns (sort_values data) opening equip.
Proof.
  unfold generate. intros H.
  destruct (Z.of_nat points <? services)%Z eqn:Hsp; [discriminate|].
  apply Z.ltb_ge in Hsp. split; [exact Hsp|].
  destruct (Qeq_bool (cube_root locations) 0); [discriminate|].
  cbv zeta in H.
  apply bind_Ret in H as (coords0 & s1 & H1 & H).
  apply bind_Ret in H as (st0 & s2 & H2 & H).
  apply bind_Ret in H as (data0 & s3 & H3 & H).
  apply bind_Ret in H as (opening & s4 & H4 & H).
  apply bind_Ret in H as (equip & s5 & H5 & H).
  inversion H; subst; clear H.
  exists coords0, s1, s2, s3, s4, opening, equip.
  repeat split; assumption.
Qed.

End GeneratorFacts.

Lemma repair_connected budget sr md locations points st s st' s' :
  repair budget sr md locations points st s = (Ret st', s') ->
  forall u, u < locations + points -> 1 ≤ degree (G st') u.
Proof.
  unfold repair. intros H u Hu.
  apply bind_Ret in H as (st1 & s1 & H1 & H2).
  apply repair_pass_spec in H1 as (Hdeg1 & _).
  apply repair_pass_spec in H2 as (Hdeg2 & Hsub2 & _).
  destruct (decide (u < locations)) as [Hlt|Hge].
  - apply Hdeg2, elem_of_seq. lia.
  - eapply edges_subset_degree; [exact Hsub2|].
    apply Hdeg1, elem_of_seq. lia.
Qed.

(** ** The assignment of the services *)

Lemma randint_Ret high s r s' :
  randint high s = (Ret r, s') -> (0 <= r < high)%Z.
Proof.
  unfold randint. destruct (0 <? high)%Z eqn:Hh; [|discriminate].
  apply Z.ltb_lt in Hh. intros H. inversion H; subst.
  apply Z.mod_pos_bound. exact Hh.
Qed.

Lemma assign_step_spec services locations G0 a d s a' s' :
  assign_step services locations G0 a d s = (Ret a', s') ->
  rows a' = rows a ++ triplets (service_requested a) locations d (neighbors G0 d)
  /\ (if all_services_requested a
      then all_services_requested a' = true
           /\ (0 <= service_requested a' < services)%Z
      else s' = s
           /\ if (service_requested a =? services - 1)%Z
              then service_requested a' = service_requested a
                   /\ all_services_requested a' = true
              else service_requested a' = (service_requested a + 1)%Z
                   /\ all_services_requested a' = false).
Proof.
  unfold assign_step. intros H.
  apply bind_Ret in H as (locs & s1 & [<- ->]%get_adj_Ret & H).
  destruct (all_services_requested a); simpl in H.
  - apply bind_Ret in H as (r & s2 & Hr%randint_Ret & H).
    inversion H; subst; simpl. auto.
  - destruct (service_requested a =? services - 1)%Z;
      inversion H; subst; simpl; auto.
Qed.

(** The state of the assigner before the demand point number [k] (counted
    from 0): in the round-robin phase the current service is [k]. *)
Definition phase (services : Z) (k : nat) (a : Assigner) : Prop :=
  if all_services_requested a
  then (0 <= service_requested a < services)%Z
  else service_requested a = Z.of_nat k /\ (Z.of_nat k < services)%Z.

Lemma assign_loop services locations G0 n :
  forall k a s a' s',
    phase services k a ->
    for_each (assign_step services locations G0) (seq (locations + k) n) a s
    = (Ret a', s') ->
    exists new,
      rows a' = rows a ++ new
      /\ (forall r, r ∈ new -> (0 <= service r < services)%Z)
      /\ (all_services_requested a = false ->
          forall id, k ≤ id < k + n -> (Z.of_nat id < services)%Z ->
            neighbors G0 (locations + id) ≠ [] ->
            exists r, r ∈ new /\ service r = Z.of_nat id).
Proof.
  induction n as [|n IH]; intros k a s a' s' Hph H; simpl in H.
  - inversion H; subst. exists []. rewrite app_nil_r. split; [done|].
    split; [intros r Hr; by apply elem_of_nil in Hr|]. intros _ id Hid. lia.
  - apply bind_Ret in H as (a1 & s1 & H1 & H2).
    apply assign_step_spec in H1 as (Hrows & Hnext).
    replace (S (locations + k)) with (locations + S k) in H2 by lia.
    assert ((0 <= service_requested a < services)%Z) as Hcur.
    { unfold phase in Hph. destruct (all_services_requested a); lia. }
    assert (phase services (S k) a1) as Hph1.
    { unfold phase in *. destruct (all_services_requested a).
      - destruct Hnext as [-> ?]. lia.
      - destruct Hnext as [_ Hnext].
        destruct (service_requested a =? services - 1)%Z eqn:E.
        + destruct Hnext as [-> ->]. lia.
        + apply Z.eqb_neq in E. destruct Hnext as [-> ->]. lia. }
    destruct (IH _ _ _ _ _ Hph1 H2) as (new & Hrows' & Hrange & Hcover).
    exists (triplets (service_requested a) locations (locations + k)
              (neighbors G0 (locations + k)) ++ new).
    split; [rewrite Hrows', Hrows; by rewrite app_assoc|]. split.
    + intros r [Hr|Hr]%elem_of_app; [|auto].
      unfold triplets in Hr. apply list_elem_of_fmap in Hr as (loc & -> & _).
      simpl. exact Hcur.
    + intros Hfalse id Hid Hlt Hne. unfold phase in Hph.
      rewrite Hfalse in Hnext, Hph. destruct Hph as [Hk _].
      destruct (decide (id = k)) as [->|Hidk].
      * destruct (neighbors G0 (locations + k)) as [|loc nb]; [done|].
        exists (mkRecord (service_requested a) loc (locations + k - locations)).
        split; [|simpl; exact Hk].
        rewrite elem_of_app. left. unfold triplets. rewrite fmap_cons.
        rewrite elem_of_cons. auto.
      * destruct Hnext as [_ Hnext].
        destruct (service_requested a =? services - 1)%Z eqn:E.
        { apply Z.eqb_eq in E. lia. }
        destruct Hnext as [_ Hfalse1].
        destruct (Hcover Hfalse1 id) as (r & Hr & Hs); [lia|lia|done|].
        exists r. split; [rewrite elem_of_app; auto|exact Hs].
Qed.

(** The pairs (location, point) of the rows are the edges, enumerated
    demand point after demand point. *)
Definition edge_pairs (locations points : nat) (G0 : Graph) : list (nat * nat) :=
  seq locations points ≫=
    (fun d => (fun loc => (loc, d - locations)) <$> neighbors G0 d).

Definition pair_of (r : ServiceRecord) : nat * nat := (location r, point r).

Lemma assign_rows services locations G0 dems :
  forall a s a' s',
    for_each (assign_step services locations G0) dems a s = (Ret a', s') ->
    exists new,
      rows a' = rows a ++ new
      /\ pair_of <$> new =
         dems ≫= (fun d => (fun loc => (loc, d - locations)) <$> neighbors G0 d).
Proof.
  induction dems as [|d dems IH]; intros a s a' s' H; simpl in H.
  - inversion H; subst. exists []. by rewrite app_nil_r.
  - apply bind_Ret in H as (a1 & s1 & H1 & H2).
    apply assign_step_spec in H1 as (Hrows & _).
    destruct (IH _ _ _ _ H2) as (new & Hrows' & Hpairs).
    exists (triplets (service_requested a) locations d (neighbors G0 d) ++ new).
    split; [rewrite Hrows', Hrows; by rewrite app_assoc|].
    rewrite fmap_app, bind_cons, Hpairs. f_equal.
    unfold triplets. rewrite <- list_fmap_compose. reflexivity.
Qed.

Lemma assign_services_spec services locations points G0 s data s' :
  assign_services services locations points G0 s = (Ret data, s') ->
  pair_of <$> data = edge_pairs locations points G0
  /\ ((0 < services)%Z ->
      (forall r, r ∈ data -> (0 <= service r < services)%Z)
      /\ (forall id, id < points -> (Z.of_nat id < services)%Z ->
            neighbors G0 (locations + id) ≠ [] ->
            exists r, r ∈ data /\ service r = Z.of_nat id)).
Proof.
  unfold assign_services. intros H.
  apply bind_Ret in H as (a & s1 & H & Hret). inversion Hret; subst; clear Hret.
  split.
  - apply assign_rows in H as (new & Hrows & Hpairs). simpl in Hrows.
    by rewrite Hrows.
  - intros Hpos.
    replace (seq locations points) with (seq (locations + 0) points) in H
      by (f_equal; lia).
    apply assign_loop with (k := 0) in H as (new & Hrows & Hrange & Hcover).
    + simpl in Hrows. subst new. split; [exact Hrange|].
      intros id Hid. apply Hcover; [reflexivity|lia].
    + unfold phase; simpl. lia.
Qed.

(** ** The edges as rows *)

Lemma elem_of_edge_pairs locations points G0 loc p :
  (loc, p) ∈ edge_pairs locations points G0 <->
  p < points /\ edge G0 (locations + p) loc.
Proof.
  unfold edge_pairs, edge. rewrite list_elem_of_bind. split.
  - intros (d & Hin & Hd%elem_of_seq).
    apply list_elem_of_fmap in Hin as (loc' & Heq & Hloc). inversion Heq; subst.
    replace (locations + (d - locations)) with d by lia. split; [lia|done].
  - intros [Hp Hloc]. exists (locations + p). split; [|apply elem_of_seq; lia].
    apply list_elem_of_fmap. exists loc. split; [f_equal; lia|done].
Qed.

Lemma NoDup_edge_pairs locations points G0 :
  wf G0 -> NoDup (edge_pairs locations points G0).
Proof.
  intros [Hnd _]. unfold edge_pairs. apply NoDup_bind.
  - intros d1 d2 [loc p] Hd1%elem_of_seq Hd2%elem_of_seq H1 H2.
    apply list_elem_of_fmap in H1 as (l1 & E1 & _).
    apply list_elem_of_fmap in H2 as (l2 & E2 & _).
    inversion E1; inversion E2; subst. lia.
  - intros d _. apply NoDup_fmap_2_strong; [|apply Hnd].
    intros x y _ _ E. by inversion E.
  - apply NoDup_seq.
Qed.

Lemma length_bind_ge {A B} (f : A -> list B) (l : list A) :
  (forall x, x ∈ l -> 1 ≤ length (f x)) -> length l ≤ length (l ≫= f).
Proof.
  induction l as [|x l IH]; intros H; [simpl; lia|].
  rewrite bind_cons, length_app. simpl.
  pose proof (H x ltac:(rewrite elem_of_cons; auto)).
  assert (length l ≤ length (l ≫= f)); [|lia].
  apply IH. intros y Hy. apply H. rewrite elem_of_cons; auto.
Qed.

Lemma edge_pairs_length_points locations points G0 :
  (forall u, u < locations + points -> 1 ≤ degree G0 u) ->
  points ≤ length (edge_pairs locations points G0).
Proof.
  intros Hdeg. unfold edge_pairs.
  etrans; [|apply length_bind_ge].
  - by rewrite length_seq.
  - intros d Hd%elem_of_seq. rewrite length_fmap. apply Hdeg. lia.
Qed.

Lemma edge_pairs_length_locations locations points G0 :
  wf G0 -> bipartite locations points G0 ->
  (forall u, u < locations + points -> 1 ≤ degree G0 u) ->
  locations ≤ length (edge_pairs locations points G0).
Proof.
  intros [_ Hsym] Hbi Hdeg.
  rewrite <- (length_fmap fst (edge_pairs locations points G0)).
  etrans; [|apply (submseteq_length (seq 0 locations))];
    [by rewrite length_seq|].
  apply NoDup_submseteq; [apply NoDup_seq|].
  intros loc Hloc%elem_of_seq.
  destruct (proj1 (degree_pos G0 loc) (Hdeg loc ltac:(lia))) as [d Hd].
  destruct (Hbi loc d Hd) as [[_ Hd']|[? ?]]; [|lia].
  apply list_elem_of_fmap. exists (loc, d - locations). split; [done|].
  apply elem_of_edge_pairs. split; [lia|].
  replace (locations + (d - locations)) with d by lia. by apply Hsym.
Qed.

(** ** Sorting *)





Lemma insert_record_perm r l : insert_record r l ≡ₚ r :: l.
Proof.
  induction l as [|x l IH]; simpl; [done|].
  destruct (record_leb r x); [done|]. rewrite IH. apply Permutation_swap.
Qed.


Lemma sort_values_perm l : sort_values l ≡ₚ l.
Proof.
  induction l as [|x l IH]; simpl; [done|].
  rewrite insert_record_perm. by rewrite IH.
Qed.


(** ** Costs *)

Lemma random_draws_length n s us s' :
  random_draws n s = (Ret us, s') -> length us = n.
Proof.
  revert s us s'. induction n as [|n IH]; intros s us s' H; simpl in H.
  - by inversion H.
  - apply bind_Ret in H as (x & s1 & _ & H).
    apply bind_Ret in H as (xs & s2 & Hxs & H).
    inversion H; subst. simpl. f_equal. eauto.
Qed.

Lemma costs_length lo hi n s l s' :
  costs lo hi n s = (Ret l, s') -> length l = Z.to_nat n.
Proof.
  unfold costs, random_sample. intros H.
  apply bind_Ret in H as (us & s1 & Hus & H). inversion H; subst.
  rewrite length_fmap. destruct (n <? 0)%Z; [discriminate|].
  by apply random_draws_length in Hus.
Qed.

(** While the round robin lasts no draw is made: after [k <= services]
    demand points the current service is [min k (services - 1)], and the
    flag is set exactly when [k = services]. *)
Lemma round_robin_prefix services locations G0 k :
  (0 < services)%Z -> (Z.of_nat k <= services)%Z ->
  forall s a s',
    for_each (assign_step services locations G0) (seq locations k)
      (mkAssigner [] 0%Z false) s = (Ret a, s') ->
    s' = s
    /\ service_requested a = Z.min (Z.of_nat k) (services - 1)
    /\ all_services_requested a = bool_decide (Z.of_nat k = services).
Proof.
  intros Hpos. induction k as [|k IH]; intros Hk s a s' H.
  - simpl in H. inversion H; subst; simpl. split; [done|]. split; [lia|].
    rewrite bool_decide_eq_false_2; [done|lia].
  - rewrite seq_S, for_each_app in H.
    apply bind_Ret in H as (a1 & s1 & H1 & H2).
    apply IH in H1 as (-> & Hsr & Hall); [|lia].
    simpl in H2. apply bind_Ret in H2 as (a2 & s2 & H2 & H3).
    inversion H3; subst; clear H3.
    apply assign_step_spec in H2 as (_ & Hnext).
    rewrite Hall, bool_decide_eq_false_2 in Hnext by lia.
    destruct Hnext as [-> Hnext]. split; [done|].
    destruct (service_requested a1 =? services - 1)%Z eqn:E.
    + apply Z.eqb_eq in E. destruct Hnext as [-> ->]. split; [lia|].
      rewrite bool_decide_eq_true_2; [done|lia].
    + apply Z.eqb_neq in E. destruct Hnext as [-> ->]. split; [lia|].
      rewrite bool_decide_eq_false_2; [done|lia].
Qed.

(** The rows of the demand point that follows the round robin carry the
    last service again. *)
Lemma after_round_robin services locations points G0 s data s' :
  assign_services services locations points G0 s = (Ret data, s') ->
  (0 < services)%Z ->
  forall r, r ∈ data -> Z.of_nat (point r) = services ->
    service r = (services - 1)%Z.
Proof.
  unfold assign_services. intros H Hpos r Hr Hpt.
  apply bind_Ret in H as (a & s1 & H & Hret). inversion Hret; subst; clear Hret.
  remember (point r) as k eqn:Hkdef.
  assert (k < points) as Hk.
  { destruct (assign_rows _ _ _ _ _ _ _ _ H) as (new & Hrows & Hpairs).
    simpl in Hrows. rewrite Hrows in Hr.
    assert (pair_of r ∈ pair_of <$> new) as Hin by (by apply list_elem_of_fmap_2).
    rewrite Hpairs in Hin. apply list_elem_of_bind in Hin as (d & Hin & Hd%elem_of_seq).
    apply list_elem_of_fmap in Hin as (loc & E & _). inversion E. lia. }
  rewrite (seq_split_at locations points k Hk), for_each_app in H.
  apply bind_Ret in H as (a1 & s2 & H1 & H2).
  pose proof (round_robin_prefix _ _ _ k Hpos ltac:(lia) _ _ _ H1)
    as (_ & Hsr & _).
  destruct (assign_rows _ _ _ _ _ _ _ _ H1) as (new1 & Hrows1 & Hpairs1).
  simpl in H2. apply bind_Ret in H2 as (a2 & s3 & H2 & H3).
  apply assign_step_spec in H2 as (Hrows2 & _).
  destruct (assign_rows _ _ _ _ _ _ _ _ H3) as (new3 & Hrows3 & Hpairs3).
  rewrite Hrows3, Hrows2, Hrows1 in Hr. simpl in Hr.
  apply elem_of_app in Hr as [Hr|Hr]; [apply elem_of_app in Hr as [Hr|Hr]|].
  - exfalso.
    assert (pair_of r ∈ pair_of <$> new1) as Hin by (by apply list_elem_of_fmap_2).
    rewrite Hpairs1 in Hin.
    apply list_elem_of_bind in Hin as (d & Hin & Hd%elem_of_seq).
    apply list_elem_of_fmap in Hin as (loc & E & _). inversion E. lia.
  - unfold triplets in Hr. apply list_elem_of_fmap in Hr as (loc & -> & _).
    simpl. lia.
  - exfalso.
    assert (pair_of r ∈ pair_of <$> new3) as Hin by (by apply list_elem_of_fmap_2).
    rewrite Hpairs3 in Hin.
    apply list_elem_of_bind in Hin as (d & Hin & Hd%elem_of_seq).
    apply list_elem_of_fmap in Hin as (loc & E & _). inversion E. lia.
Qed.

(** ** Loops that do not end *)






(** ** The generator state decides the run *)

(** Two generator states that yield the same draws from now on. *)
Definition same_draws (s1 s2 : RandomState) : Prop :=
  cursor s1 = cursor s2 /\ forall n, cursor s1 ≤ n -> tape s1 n = tape s2 n.

Definition deterministic {A} (m : M A) : Prop :=
  forall s1 s2, same_draws s1 s2 ->
    fst (m s1) = fst (m s2) /\ same_draws (snd (m s1)) (snd (m s2)).

Lemma same_draws_advance s1 s2 :
  same_draws s1 s2 -> same_draws (advance s1) (advance s2).
Proof.
  intros [Hc Ht]. split; simpl; [by rewrite Hc|]. intros n Hn. apply Ht. lia.
Qed.

Lemma deterministic_ret {A} (a : A) : deterministic (ret a).
Proof. intros s1 s2 H. auto. Qed.

Lemma deterministic_raise {A} e : deterministic (@raise A e).
Proof. intros s1 s2 H. auto. Qed.

Lemma deterministic_timeout {A} : deterministic (@timeout A).
Proof. intros s1 s2 H. auto. Qed.

Lemma deterministic_bind {A B} (m : M A) (k : A -> M B) :
  deterministic m -> (forall a, deterministic (k a)) -> deterministic (bind m k).
Proof.
  intros Hm Hk s1 s2 H. unfold bind.
  destruct (Hm s1 s2 H) as [Ho Hs].
  destruct (m s1) as [[a1|e1|] t1], (m s2) as [[a2|e2|] t2]; simpl in *;
    try discriminate; try (inversion Ho; subst; auto).
  by apply Hk.
Qed.

Lemma deterministic_from_option {A} (o : option A) : deterministic (from_option o).
Proof. destruct o; [apply deterministic_ret|apply deterministic_raise]. Qed.

Lemma deterministic_random : deterministic random.
Proof.
  intros s1 s2 H. unfold random; simpl. split; [|by apply same_draws_advance].
  destruct H as [Hc Ht]. rewrite <- Hc, (Ht (cursor s1)); [done|lia].
Qed.

Lemma deterministic_randint high : deterministic (randint high).
Proof.
  intros s1 s2 H. unfold randint. destruct (0 <? high)%Z; simpl; [|auto].
  split; [|by apply same_draws_advance].
  destruct H as [Hc Ht]. rewrite <- Hc, (Ht (cursor s1)); [done|lia].
Qed.

Lemma deterministic_for_each {A B} (f : B -> A -> M B) l :
  (forall b a, deterministic (f b a)) -> forall b, deterministic (for_each f l b).
Proof.
  intros Hf. induction l as [|a l IH]; intros b; simpl.
  - apply deterministic_ret.
  - apply deterministic_bind; auto.
Qed.

Create HintDb det.
#[local] Hint Resolve deterministic_ret deterministic_raise deterministic_timeout
  deterministic_from_option deterministic_random deterministic_randint : det.

Lemma deterministic_get_adj G0 u : deterministic (get_adj G0 u).
Proof. apply deterministic_from_option. Qed.

Lemma deterministic_get_pos G0 u : deterministic (get_pos G0 u).
Proof. apply deterministic_from_option. Qed.
#[local] Hint Resolve deterministic_get_adj deterministic_get_pos : det.

Ltac det_step :=
  first [ solve [auto with det]
        | progress cbv zeta
        | apply deterministic_bind; [|intros ?]
        | apply deterministic_for_each; intros ? ?
        | match goal with |- deterministic (if ?c then _ else _) => destruct c end ].

Lemma deterministic_draw_coord : deterministic draw_coord.
Proof. unfold draw_coord. repeat det_step. Qed.
#[local] Hint Resolve deterministic_draw_coord : det.

Lemma deterministic_random_draws n : deterministic (random_draws n).
Proof. induction n; simpl; repeat det_step. Qed.
#[local] Hint Resolve deterministic_random_draws : det.

Lemma deterministic_costs lo hi n : deterministic (costs lo hi n).
Proof. unfold costs, random_sample. repeat det_step. Qed.

Lemma deterministic_sample_coords fuel total md coords0 idx :
  deterministic (sample_coords fuel total md coords0 idx).
Proof.
  revert coords0 idx. induction fuel as [|fuel IH]; intros coords0 idx; simpl;
    repeat det_step.
Qed.

Lemma deterministic_resample fuel md coords0 :
  deterministic (resample fuel md coords0).
Proof. induction fuel as [|fuel IH]; simpl; repeat det_step. Qed.
#[local] Hint Resolve deterministic_costs deterministic_sample_coords
  deterministic_resample : det.

Lemma deterministic_update_neighbors cls sr others idx c G0 :
  deterministic (update_neighbors cls sr others idx c G0).
Proof. unfold update_neighbors. repeat det_step. Qed.
#[local] Hint Resolve deterministic_update_neighbors : det.

Lemma deterministic_relocate fuel budget cls sr md others idx st :
  deterministic (relocate fuel budget cls sr md others idx st).
Proof.
  revert st. induction fuel as [|fuel IH]; intros st; simpl; repeat det_step.
Qed.
#[local] Hint Resolve deterministic_relocate : det.

Lemma deterministic_repair budget sr md locations points st :
  deterministic (repair budget sr md locations points st).
Proof.
  unfold repair, repair_pass, repair_node. repeat det_step.
Qed.

Lemma deterministic_assign_services services locations points G0 :
  deterministic (assign_services services locations points G0).
Proof.
  unfold assign_services, assign_step. repeat det_step.
Qed.
#[local] Hint Resolve deterministic_repair deterministic_assign_services : det.


(** ** More fuel does not change a completed run *)

Lemma bind_Ret_intro {A B} (m : M A) (k : A -> M B) s a s1 r :
  m s = (Ret a, s1) -> k a s1 = r -> bind m k s = r.
Proof. intros Hm Hk. unfold bind. by rewrite Hm. Qed.

Lemma for_each_mono {A B} (f g : B -> A -> M B) l :
  (forall b a s b' s', f b a s = (Ret b', s') -> g b a s = (Ret b', s')) ->
  forall b s b' s',
    for_each f l b s = (Ret b', s') -> for_each g l b s = (Ret b', s').
Proof.
  intros Hfg. induction l as [|a l IH]; intros b s b' s' H; simpl in *; [exact H|].
  apply bind_Ret in H as (b1 & s1 & H1 & H2).
  eapply bind_Ret_intro; eauto.
Qed.

Lemma resample_fuel_mono fuel fuel' md coords0 s c s' :
  resample fuel md coords0 s = (Ret c, s') -> fuel ≤ fuel' ->
  resample fuel' md coords0 s = (Ret c, s').
Proof.
  revert fuel' s. induction fuel as [|fuel IH]; intros fuel' s H Hle;
    simpl in H; [discriminate|].
  destruct fuel' as [|fuel']; [lia|]. simpl.
  apply bind_Ret in H as (c1 & s1 & Hd & H).
  eapply bind_Ret_intro; [exact Hd|].
  destruct (too_close md coords0 c1); [|exact H]. apply IH; [exact H|lia].
Qed.

Lemma sample_coords_fuel_mono fuel fuel' total md coords0 idx s c s' :
  sample_coords fuel total md coords0 idx s = (Ret c, s') -> fuel ≤ fuel' ->
  sample_coords fuel' total md coords0 idx s = (Ret c, s').
Proof.
  revert fuel' coords0 idx s.
  induction fuel as [|fuel IH]; intros fuel' coords0 idx s H Hle;
    simpl in H; [discriminate|].
  destruct fuel' as [|fuel']; [lia|]. simpl.
  destruct (idx <? total); [|exact H].
  apply bind_Ret in H as (c1 & s1 & Hd & H).
  eapply bind_Ret_intro; [exact Hd|].
  destruct (too_close md coords0 c1); (apply IH; [exact H|lia]).
Qed.

Lemma relocate_fuel_mono fuel fuel' budget budget' cls sr md others idx st s st' s' :
  relocate fuel budget cls sr md others idx st s = (Ret st', s') ->
  fuel ≤ fuel' -> budget ≤ budget' ->
  relocate fuel' budget' cls sr md others idx st s = (Ret st', s').
Proof.
  intros H Hle Hb. revert fuel' st s H Hle.
  induction fuel as [|fuel IH]; intros fuel' st s H Hle;
    simpl in H; [discriminate|].
  destruct fuel' as [|fuel']; [lia|]. simpl.
  apply bind_Ret in H as (nb & s1 & Hnb & H).
  eapply bind_Ret_intro; [exact Hnb|].
  destruct (length nb =? 0); [|exact H].
  apply bind_Ret in H as (c & s2 & Hc & H).
  eapply bind_Ret_intro; [eapply resample_fuel_mono; eauto|].
  apply bind_Ret in H as (G' & s3 & HG' & H).
  eapply bind_Ret_intro; [exact HG'|]. apply IH; [exact H|lia].
Qed.

Lemma repair_budget_mono budget budget' sr md locations points st s st' s' :
  repair budget sr md locations points st s = (Ret st', s') ->
  budget ≤ budget' ->
  repair budget' sr md locations points st s = (Ret st', s').
Proof.
  intros H Hle.
  assert (forall cls nodes others st s st' s',
             repair_pass budget cls sr md nodes others st s = (Ret st', s') ->
             repair_pass budget' cls sr md nodes others st s = (Ret st', s'))
    as Hpass.
  { intros cls nodes others. unfold repair_pass. apply for_each_mono.
    intros st0 idx s0 st1 s1 H0. unfold repair_node in *.
    apply bind_Ret in H0 as (nb & s2 & Hnb & H0).
    eapply bind_Ret_intro; [exact Hnb|].
    eapply relocate_fuel_mono; eauto. }
  unfold repair in *. apply bind_Ret in H as (st1 & s1 & H1 & H2).
  eapply bind_Ret_intro; eauto.
Qed.

Lemma generate_budget_mono cube_root budget budget' services locations points f
    s r s' :
  generate cube_root budget services locations points f s = (Ret r, s') ->
  budget ≤ budget' ->
  generate cube_root budget' services locations points f s = (Ret r, s').
Proof.
  unfold generate. intros H Hle.
  destruct (Z.of_nat points <? services)%Z; [discriminate|].
  destruct (Qeq_bool (cube_root locations) 0); [discriminate|].
  cbv zeta in *.
  apply bind_Ret in H as (coords0 & s1 & H1 & H).
  eapply bind_Ret_intro; [eapply sample_coords_fuel_mono; eauto|].
  apply bind_Ret in H as (st0 & s2 & H2 & H).
  eapply bind_Ret_intro; [eapply repair_budget_mono; eauto|]. exact H.
Qed.

(** ** A worked run

    One location at the origin and two demand points; the first demand
    point is placed out of range and is moved by the repair. *)

Definition eighth : N := 1125899906842624.

Definition demo_coords : gmap nat coord :=
  list_to_map [(0, (0, 0)%Q); (1, (1 # 2, 1 # 2)%Q); (2, (1 # 8, 0)%Q)].

Definition demo_state : State :=
  mkState demo_coords
    (remove_edges_within (seq 1 2)
       (remove_edges_within (seq 0 1)
          (random_geometric_graph 3 (1 # 4) demo_coords))).

Definition demo_draws : list N := [eighth; eighth]%N.

(** A complete run with the same geometry: the draws of the placement,
    the draw of the relocation, then the draws of the costs. *)
Definition demo_tape : list N :=
  [0; 0; half; half; eighth; 0; eighth; eighth; half; 0; eighth]%N.

(** One location within range of three demand points. *)
Definition star_graph : Graph :=
  add_edge 0 3 (add_edge 0 2 (add_edge 0 1 (empty_graph 4 ∅))).

(** A generator that yields the raw draw [0] for ever: every coordinate
    it gives is the origin. *)
Definition zeros : RandomState := start [].

(** * The claims *)

(** C2: when the two repair passes (demand points first, then locations)
    have completed, every node of the graph, location or demand point,
    has at least one neighbour. *)
Theorem repair_no_isolated_node budget sr md locations points st s st' s' :
  repair budget sr md locations points st s = (Ret st', s') ->
  forall u, u < locations + points -> 1 ≤ degree (G st') u.
Proof. apply repair_connected. Qed.


Lemma repair_no_isolated_node_witness :
  exists st' s',
    repair 5 (1 # 4) (1 # 40) 1 2 demo_state (start demo_draws) = (Ret st', s')
    /\ forall u, u < 1 + 2 -> 1 ≤ degree (G st') u.
Proof.
  destruct (repair 5 (1 # 4) (1 # 40) 1 2 demo_state (start demo_draws))
    as [[st'|e|] s'] eqn:E.
  - exists st', s'. split; [reflexivity|].
    exact (repair_no_isolated_node _ _ _ _ _ _ _ _ _ E).
  - vm_compute in E. discriminate E.
  - vm_compute in E. discriminate E.
Defined.

(** C10: the repair only adds edges and only moves isolated nodes.  No
    edge of the graph it starts from (the graph left by the removal of the
    edges inside a class) is missing at the end, and a node that has a
    neighbour when its pass reaches it keeps its coordinate until the end
    of the repair. *)
Theorem repair_frame budget sr md locations points st s st' s' :
  repair budget sr md locations points st s = (Ret st', s') ->
  edges_subset (G st) (G st')
  /\ forall u, u < locations + points ->
       exists stu su,
         reach budget sr md locations points u st s = (Ret stu, su)
         /\ (1 ≤ degree (G stu) u -> coords st' !! u = coords stu !! u).
Proof.
  unfold repair. intros H.
  apply bind_Ret in H as (st1 & s1 & H1 & H2).
  pose proof (repair_pass_spec _ _ _ _ _ _ _ _ _ _ H1) as (_ & Hsub1 & _ & Hco1 & _).
  pose proof (repair_pass_spec _ _ _ _ _ _ _ _ _ _ H2) as (_ & Hsub2 & _ & Hco2 & _).
  split; [intros u v Huv; auto|].
  intros u Hu. unfold reach.
  destruct (u <? locations) eqn:Hlt.
  - apply Nat.ltb_lt in Hlt.
    rewrite (seq_split_at 0 locations u Hlt) in H2. simpl in H2.
    apply repair_pass_reach in H2 as (stu & su & H3 & Hkeep).
    + exists stu, su. split; [|exact Hkeep].
      unfold bind. rewrite H1. exact H3.
    + rewrite elem_of_seq. lia.
  - apply Nat.ltb_ge in Hlt.
    rewrite (seq_split_at locations points (u - locations)) in H1 by lia.
    replace (locations + (u - locations)) with u in H1 by lia.
    apply repair_pass_reach in H1 as (stu & su & H3 & Hkeep).
    + exists stu, su. split; [exact H3|]. intros Hdeg.
      rewrite Hco2; [auto|]. rewrite elem_of_seq. lia.
    + rewrite elem_of_seq. lia.
Qed.

Lemma repair_frame_witness :
  exists st' s',
    repair 5 (1 # 4) (1 # 40) 1 2 demo_state (start demo_draws) = (Ret st', s')
    /\ edges_subset (G demo_state) (G st')
    /\ forall u, u < 1 + 2 ->
         exists stu su,
           reach 5 (1 # 4) (1 # 40) 1 2 u demo_state (start demo_draws)
           = (Ret stu, su)
           /\ (1 ≤ degree (G stu) u -> coords st' !! u = coords stu !! u).
Proof.
  destruct (repair 5 (1 # 4) (1 # 40) 1 2 demo_state (start demo_draws))
    as [[st'|e|] s'] eqn:E.
  - exists st', s'. split; [reflexivity|].
    exact (repair_frame _ _ _ _ _ _ _ _ _ E).
  - vm_compute in E. discriminate E.
  - vm_compute in E. discriminate E.
Defined.



(** C4, as amended: the graph that the service assigner consumes is
    bipartite, every edge joins a location (an index below [locations])
    and a demand point (an index of [[locations, locations + points)]).
    This is so from the end of the removal loops of lines 59-67 on:
    line 57 builds the graph over all pairs of nodes, the two loop nests
    remove the edges inside a class, whatever the coordinates, and the
    repair only joins a location and a demand point. *)
Theorem assigner_graph_bipartite cube_root budget services locations points f
    s st data table s' :
  generate cube_root budget services locations points f s
  = (Ret (st, data, table), s') ->
  (forall coords0,
      bipartite locations points
        (filtered_graph locations points
           (service_range_of cube_root locations f) coords0))
  /\ bipartite locations points (G st).
Proof.
  intros H. split; [intros coords0; apply filtered_graph_spec|].
  apply generate_Ret in H
    as (_ & coords0 & s1 & s2 & s3 & s4 & op & eq & _ & H2 & _).
  eapply repair_bipartite; [exact H2|]. simpl.
  apply filtered_graph_spec.
Qed.

Lemma assigner_graph_bipartite_witness :
  exists st data table s',
    generate unit_root 5 2 1 2 (1 # 4) (start demo_tape) = (Ret (st, data, table), s')
    /\ (forall coords0,
          bipartite 1 2
            (filtered_graph 1 2 (service_range_of unit_root 1 (1 # 4)) coords0))
    /\ bipartite 1 2 (G st).
Proof.
  destruct (generate unit_root 5 2 1 2 (1 # 4) (start demo_tape))
    as [[[[st data] table]|e|] s'] eqn:E.
  - exists st, data, table, s'. split; [reflexivity|].
    exact (assigner_graph_bipartite _ _ _ _ _ _ _ _ _ _ _ E).
  - vm_compute in E. discriminate E.
  - vm_compute in E. discriminate E.
Defined.

(** The draws of a placement that puts the two demand points of a
    one-location instance within range of each other. *)
Definition close_points_tape : list N := [0; 0; half; half; half; 0]%N.

(** C4, as stated, fails: with one location, two demand points and
    [service_range_factor = 1] the graph of line 57 joins the two demand
    points [1] and [2]; the edge is there until line 67 removes it. *)
Lemma same_class_edge_added :
  exists coords0 s1,
    sample_coords 5 (1 + 2) (minimum_distance_of unit_root 1 1) ∅ 0
      (start close_points_tape) = (Ret coords0, s1)
    /\ edge (random_geometric_graph (1 + 2) (service_range_of unit_root 1 1) coords0) 1 2
    /\ ~ bipartite 1 2
          (random_geometric_graph (1 + 2) (service_range_of unit_root 1 1) coords0).
Proof.
  destruct (sample_coords 5 (1 + 2) (minimum_distance_of unit_root 1 1) ∅ 0
              (start close_points_tape)) as [[coords0|e|] s1] eqn:E;
    [|vm_compute in E; discriminate E|vm_compute in E; discriminate E].
  exists coords0, s1. split; [reflexivity|].
  assert (edge (random_geometric_graph (1 + 2) (service_range_of unit_root 1 1) coords0) 1 2)
    as Hedge.
  { vm_compute in E. inversion E; subst. unfold edge. vm_compute.
    apply list_elem_of_In. simpl. auto. }
  split; [exact Hedge|].
  intros Hbi. destruct (Hbi 1 2 Hedge) as [[? ?]|[? ?]]; lia.
Qed.





(** C5 (the code departs from the claim): the demand point that follows
    the round robin, the one numbered [services] counting from 0, is not
    given a drawn service: whatever the state of the generator, its rows
    carry [services - 1], the service of the demand point before it.
    (The first [services] demand points do receive [0, 1, ...,
    services - 1] without any draw, [round_robin_prefix], and all the rows
    of one demand point carry one service, [assign_step_spec].) *)
Theorem point_after_round_robin_repeats services locations points G0 s data s' :
  assign_services services locations points G0 s = (Ret data, s') ->
  (0 < services)%Z ->
  forall r, r ∈ data -> Z.of_nat (point r) = services ->
    service r = (services - 1)%Z.
Proof. apply after_round_robin. Qed.

Lemma point_after_round_robin_repeats_witness :
  exists data s',
    assign_services 2 1 3 star_graph zeros = (Ret data, s')
    /\ mkRecord 1 0 2 ∈ data
    /\ forall r, r ∈ data -> Z.of_nat (point r) = 2%Z -> service r = (2 - 1)%Z.
Proof.
  destruct (assign_services 2 1 3 star_graph zeros) as [[data|e|] s'] eqn:E.
  - exists data, s'. split; [reflexivity|]. split.
    + vm_compute in E. inversion E. rewrite !elem_of_cons. auto.
    + apply (point_after_round_robin_repeats _ _ _ _ _ _ _ E). lia.
  - vm_compute in E. discriminate E.
  - vm_compute in E. discriminate E.
Defined.













(** * Further properties of the generator *)

(** ** Inputs at the edge of the domain *)

(** X1: with no location the cube root of line 41 is zero and the division
    raises [ZeroDivisionError], before anything is drawn; the check of
    line 34 comes first, so this is the outcome whenever
    [services <= points]. *)
Theorem no_location_divides_by_zero cube_root budget services points f s :
  (cube_root 0%nat == 0)%Q -> (services <= Z.of_nat points)%Z ->
  generate_problem_file cube_root budget services 0 points f s
  = (Raise ZeroDivisionError, s).
Proof.
  intros Hroot Hle. unfold generate_problem_file, generate, bind.
  apply Z.ltb_ge in Hle. rewrite Hle.
  apply Qeq_bool_iff in Hroot. rewrite Hroot. reflexivity.
Qed.

Lemma no_location_divides_by_zero_witness :
  (unit_root 0%nat == 0)%Q /\ (1 <= Z.of_nat 2)%Z
  /\ generate_problem_file unit_root 5 1 0 2 1 zeros = (Raise ZeroDivisionError, zeros).
Proof.
  split; [reflexivity|]. split; [lia|].
  apply (no_location_divides_by_zero unit_root 5 1 2 1 zeros); [reflexivity|lia].
Defined.

(** X2: with at least one location and no demand point the generator
    produces no instance: a location can only be joined to a demand
    point, so the relocation loop of line 91 cannot be left.  (Such a
    configuration passes line 34 when [services <= 0].) *)
Theorem no_demand_point_no_instance cube_root budget services locations f s :
  1 ≤ locations ->
  forall r s', generate cube_root budget services locations 0 f s <> (Ret r, s').
Proof.
  intros Hloc [[st data] table] s' H.
  apply generate_Ret in H
    as (_ & coords0 & s1 & s2 & s3 & s4 & op & eq & _ & H2 & _).
  pose proof (repair_connected _ _ _ _ _ _ _ _ _ H2 0 ltac:(lia)) as Hdeg.
  pose proof (repair_bipartite _ _ _ _ _ _ _ _ _ H2
                (proj2 (filtered_graph_spec _ _ _ _))) as Hbi.
  apply degree_pos in Hdeg as [v Hv].
  destruct (Hbi 0 v Hv) as [[_ ?]|[_ ?]]; lia.
Qed.

Lemma no_demand_point_no_instance_witness :
  1 ≤ 1 /\ forall r s', generate unit_root 5 0 1 0 1 zeros <> (Ret r, s').
Proof.
  split; [lia|].
  apply (no_demand_point_no_instance unit_root 5 0 1 1 zeros). lia.
Defined.

(** ** The rows of the assignment *)

(** The rows that the loop of line 141 appends: where they point, and the
    services they carry. *)
Lemma assign_loop_rows services locations G0 n :
  forall k a s a' s',
    for_each (assign_step services locations G0) (seq (locations + k) n) a s
    = (Ret a', s') ->
    exists new,
      rows a' = rows a ++ new
      /\ (forall r, r ∈ new ->
            k ≤ point r < k + n /\ edge G0 (locations + point r) (location r))
      /\ (forall r1 r2, r1 ∈ new -> r2 ∈ new ->
            point r1 = point r2 -> service r1 = service r2)
      /\ (all_services_requested a = false ->
          service_requested a = Z.of_nat k ->
          forall r, r ∈ new ->
            (services <= 0 \/ Z.of_nat (point r) < services)%Z ->
            service r = Z.of_nat (point r)).
Proof.
  induction n as [|n IH]; intros k a s a' s' H; simpl in H.
  - inversion H; subst. exists []. rewrite app_nil_r. split; [done|].
    split; [|split]; try (intros r Hr; by apply elem_of_nil in Hr).
    + intros r1 r2 Hr. by apply elem_of_nil in Hr.
    + intros _ _ r Hr. by apply elem_of_nil in Hr.
  - apply bind_Ret in H as (a1 & s1 & H1 & H2).
    apply assign_step_spec in H1 as (Hrows & Hnext).
    replace (S (locations + k)) with (locations + S k) in H2 by lia.
    destruct (IH _ _ _ _ _ H2) as (new & Hrows' & Hpt & Hone & Hrr).
    set (T := triplets (service_requested a) locations (locations + k)
                (neighbors G0 (locations + k))) in *.
    assert (forall r, r ∈ T ->
              point r = k /\ service r = service_requested a
              /\ edge G0 (locations + k) (location r)) as HT.
    { intros r Hr. unfold T, triplets in Hr.
      apply list_elem_of_fmap in Hr as (loc & -> & Hloc). simpl.
      split; [lia|]. split; [reflexivity|exact Hloc]. }
    exists (T ++ new). split; [rewrite Hrows', Hrows; by rewrite app_assoc|].
    split; [|split].
    + intros r [Hr|Hr]%elem_of_app.
      * destruct (HT r Hr) as (-> & _ & He). split; [lia|exact He].
      * destruct (Hpt r Hr) as [? ?]. split; [lia|done].
    + intros r1 r2 [H1|H1]%elem_of_app [H2'|H2']%elem_of_app Heq.
      * destruct (HT r1 H1) as (_ & -> & _), (HT r2 H2') as (_ & -> & _). done.
      * destruct (HT r1 H1) as (? & _), (Hpt r2 H2') as [? _]. lia.
      * destruct (HT r2 H2') as (? & _), (Hpt r1 H1) as [? _]. lia.
      * by apply Hone.
    + intros Hfalse Hk r [Hr|Hr]%elem_of_app Hlow.
      * destruct (HT r Hr) as (-> & -> & _). exact Hk.
      * rewrite Hfalse in Hnext. destruct Hnext as [_ Hnext].
        destruct (Hpt r Hr) as [[Hge _] _].
        destruct (service_requested a =? services - 1)%Z eqn:E.
        { apply Z.eqb_eq in E. lia. }
        destruct Hnext as [Hsr Hfl]. apply Hrr; [exact Hfl|lia|exact Hr|exact Hlow].
Qed.

Lemma assign_services_rows services locations points G0 s data s' :
  assign_services services locations points G0 s = (Ret data, s') ->
  (forall r, r ∈ data ->
     point r < points /\ edge G0 (locations + point r) (location r))
  /\ (forall r1 r2, r1 ∈ data -> r2 ∈ data ->
        point r1 = point r2 -> service r1 = service r2)
  /\ (forall r, r ∈ data ->
        (services <= 0 \/ Z.of_nat (point r) < services)%Z ->
        service r = Z.of_nat (point r)).
Proof.
  unfold assign_services. intros H.
  apply bind_Ret in H as (a & s1 & H & Hret). inversion Hret; subst; clear Hret.
  replace (seq locations points) with (seq (locations + 0) points) in H
    by (f_equal; lia).
  apply assign_loop_rows in H as (new & Hrows & Hpt & Hone & Hrr).
  simpl in Hrows. rewrite Hrows. split; [|split].
  - intros r Hr. destruct (Hpt r Hr) as [? ?]. split; [lia|done].
  - exact Hone.
  - intros r Hr. by apply Hrr.
Qed.

(** X3: each demand point requests one service: the rows of one demand
    point all carry the same service id, whatever locations they join. *)
Theorem one_service_per_point services locations points G0 s data s' :
  assign_services services locations points G0 s = (Ret data, s') ->
  forall r1 r2, r1 ∈ data -> r2 ∈ data ->
    point r1 = point r2 -> service r1 = service r2.
Proof. intros H. apply (assign_services_rows _ _ _ _ _ _ _ H). Qed.

(** Two locations, two demand points, every location joined to every
    demand point. *)
Definition square_graph : Graph :=
  add_edge 1 3 (add_edge 1 2 (add_edge 0 3 (add_edge 0 2 (empty_graph 4 ∅)))).

Lemma one_service_per_point_witness :
  exists data s',
    assign_services 2 2 2 square_graph zeros = (Ret data, s')
    /\ length data = 4
    /\ forall r1 r2, r1 ∈ data -> r2 ∈ data ->
         point r1 = point r2 -> service r1 = service r2.
Proof.
  destruct (assign_services 2 2 2 square_graph zeros) as [[data|e|] s'] eqn:E.
  - exists data, s'. split; [reflexivity|]. split.
    + vm_compute in E. by inversion E.
    + exact (one_service_per_point _ _ _ _ _ _ _ E).
  - vm_compute in E. discriminate E.
  - vm_compute in E. discriminate E.
Defined.

(** X4: the round robin numbers the demand points: every row of a demand
    point numbered below [services] carries that number as its service.
    The flag of line 150 is set when the service reaches [services - 1],
    so with [services <= 0] it is never set and the rows of every demand
    point carry the number of the point, which is no id of
    [[0, services)]. *)
Theorem round_robin_numbers_points services locations points G0 s data s' :
  assign_services services locations points G0 s = (Ret data, s') ->
  forall r, r ∈ data ->
    (services <= 0 \/ Z.of_nat (point r) < services)%Z ->
    service r = Z.of_nat (point r).
Proof. intros H. apply (assign_services_rows _ _ _ _ _ _ _ H). Qed.

Lemma round_robin_numbers_points_witness :
  exists data s',
    assign_services 0 1 3 star_graph zeros = (Ret data, s')
    /\ mkRecord 2 0 2 ∈ data
    /\ forall r, r ∈ data ->
         (0 <= 0 \/ Z.of_nat (point r) < 0)%Z ->
         service r = Z.of_nat (point r).
Proof.
  destruct (assign_services 0 1 3 star_graph zeros) as [[data|e|] s'] eqn:E.
  - exists data, s'. split; [reflexivity|]. split.
    + vm_compute in E. inversion E. rewrite !elem_of_cons. auto.
    + exact (round_robin_numbers_points _ _ _ _ _ _ _ E).
  - vm_compute in E. discriminate E.
  - vm_compute in E. discriminate E.
Defined.

(** ** The table of a generated instance *)

Lemma concat_columns_rows sorted_data opening equip :
  length opening ≤ length sorted_data -> length equip ≤ length sorted_data ->
  length (concat_columns sorted_data opening equip) = length sorted_data
  /\ forall i row, concat_columns sorted_data opening equip !! i = Some row ->
       exists r, sorted_data !! i = Some r
                 /\ row = mkRow (Some (service r)) (Some (location r))
                                (Some (point r)) (opening !! i) (equip !! i).
Proof.
  intros Ho He.
  assert (length (concat_columns sorted_data opening equip) = length sorted_data)
    as Hlen.
  { unfold concat_columns. rewrite length_fmap, length_seq. lia. }
  split; [exact Hlen|]. intros i row Hrow.
  assert (i < length sorted_data) as Hi.
  { rewrite <- Hlen. eapply lookup_lt_Some. exact Hrow. }
  unfold concat_columns in Hrow. rewrite list_lookup_fmap in Hrow.
  rewrite lookup_seq_lt in Hrow by lia. simpl in Hrow. injection Hrow as <-.
  destruct (lookup_lt_is_Some_2 _ _ Hi) as [r Hr]. exists r.
  split; [exact Hr|]. by rewrite Hr.
Qed.

(** What a completed run says about its graph, its records and its
    table. *)
Lemma generate_facts cube_root budget services locations points f
    s st data table s' :
  generate cube_root budget services locations points f s
  = (Ret (st, data, table), s') ->
  (wf (G st) /\ bipartite locations points (G st)
   /\ forall u, u < locations + points -> 1 ≤ degree (G st) u)
  /\ (exists s2 s3, assign_services services locations points (G st) s2
                    = (Ret data, s3))
  /\ exists opening equip s3 s4,
       costs 4000 5000 (Z.of_nat locations) s3 = (Ret opening, s4)
       /\ costs 200 500 services s4 = (Ret equip, s')
       /\ length table = length data
       /\ forall i row, table !! i = Some row ->
            exists r, sort_values data !! i = Some r
                      /\ row = mkRow (Some (service r)) (Some (location r))
                                     (Some (point r)) (opening !! i) (equip !! i).
Proof.
  intros H.
  apply generate_Ret in H
    as (Hsp & coords0 & s1 & s2 & s3 & s4 & op & eq & _ & H2 & H3 & H4 & H5 & ->).
  pose proof (repair_connected _ _ _ _ _ _ _ _ _ H2) as Hdeg.
  pose proof (repair_wf _ _ _ _ _ _ _ _ _ H2
                (proj1 (filtered_graph_spec _ _ _ _))) as Hwf.
  pose proof (repair_bipartite _ _ _ _ _ _ _ _ _ H2
                (proj2 (filtered_graph_spec _ _ _ _))) as Hbi.
  split; [auto|]. split; [eauto|].
  exists op, eq, s3, s4. split; [exact H4|]. split; [exact H5|].
  pose proof (assign_services_spec _ _ _ _ _ _ _ H3) as (Hpairs & _).
  pose proof (costs_length _ _ _ _ _ _ H4) as Hlo.
  pose proof (costs_length _ _ _ _ _ _ H5) as Hle. rewrite Nat2Z.id in Hlo.
  assert (length (sort_values data) = length data) as Hsort
    by (apply Permutation_length, sort_values_perm).
  assert (length data = length (edge_pairs locations points (G st))) as Hlen
    by (rewrite <- Hpairs; by rewrite length_fmap).
  pose proof (edge_pairs_length_points locations points (G st) Hdeg) as HP.
  pose proof (edge_pairs_length_locations locations points (G st) Hwf Hbi Hdeg) as HL.
  destruct (concat_columns_rows (sort_values data) op eq) as [Htab Hrow];
    [lia|lia|].
  split; [lia|exact Hrow].
Qed.

(** X5: in the table of a generated instance every row is a record of the
    assignment: its location is below [locations], its point below
    [points], the two are joined in the repaired graph, and with
    [0 < services] its service is an id of [[0, services)]. *)
Theorem table_rows_in_range cube_root budget services locations points f
    s st data table s' :
  generate cube_root budget services locations points f s
  = (Ret (st, data, table), s') ->
  forall row, row ∈ table ->
    exists r, r ∈ data
      /\ row_service row = Some (service r)
      /\ row_location row = Some (location r)
      /\ row_point row = Some (point r)
      /\ location r < locations /\ point r < points
      /\ edge (G st) (location r) (locations + point r)
      /\ ((0 < services)%Z -> (0 <= service r < services)%Z).
Proof.
  intros H row Hrow.
  apply generate_facts in H
    as ((Hwf & Hbi & _) & (s2 & s3 & Ha) & op & eq & s4 & s5 & _ & _ & _ & Htab).
  apply list_elem_of_lookup in Hrow as [i Hi].
  destruct (Htab i row Hi) as (r & Hr & ->). simpl.
  assert (r ∈ data) as Hin.
  { rewrite <- (sort_values_perm data). eapply list_elem_of_lookup_2. exact Hr. }
  destruct (assign_services_rows _ _ _ _ _ _ _ Ha) as (Hpt & _).
  destruct (Hpt r Hin) as [Hp He].
  exists r. split; [exact Hin|]. repeat split; try done.
  - destruct (Hbi _ _ He) as [[? ?]|[? ?]]; lia.
  - destruct Hwf as [_ Hsym]. by apply Hsym.
  - apply (assign_services_spec _ _ _ _ _ _ _ Ha); done.
  - apply (assign_services_spec _ _ _ _ _ _ _ Ha); done.
Qed.

Lemma table_rows_in_range_witness :
  exists st data table s',
    generate unit_root 5 2 1 2 (1 # 4) (start demo_tape) = (Ret (st, data, table), s')
    /\ forall row, row ∈ table ->
         exists r, r ∈ data
           /\ row_service row = Some (service r)
           /\ row_location row = Some (location r)
           /\ row_point row = Some (point r)
           /\ location r < 1 /\ point r < 2
           /\ edge (G st) (location r) (1 + point r)
           /\ ((0 < 2)%Z -> (0 <= service r < 2)%Z).
Proof.
  destruct (generate unit_root 5 2 1 2 (1 # 4) (start demo_tape))
    as [[[[st data] table]|e|] s'] eqn:E.
  - exists st, data, table, s'. split; [reflexivity|].
    exact (table_rows_in_range _ _ _ _ _ _ _ _ _ _ _ E).
  - vm_compute in E. discriminate E.
  - vm_compute in E. discriminate E.
Defined.

Lemma edge_pairs_length_product locations points G0 :
  wf G0 -> bipartite locations points G0 ->
  length (edge_pairs locations points G0) ≤ locations * points.
Proof.
  intros Hwf Hbi.
  etrans; [apply (submseteq_length _
                    (list_prod (seq 0 locations) (seq 0 points)))
          |by rewrite length_prod, !length_seq].
  apply NoDup_submseteq; [by apply NoDup_edge_pairs|].
  intros [loc p] [Hp He]%elem_of_edge_pairs.
  apply list_elem_of_In, in_prod_iff. rewrite !in_seq.
  destruct (Hbi _ _ He) as [[? ?]|[? ?]]; lia.
Qed.

(** X6: the table of a generated instance has at least as many rows as
    there are locations, at least as many as there are demand points, and
    at most [locations * points] rows. *)
Theorem table_row_count cube_root budget services locations points f
    s st data table s' :
  generate cube_root budget services locations points f s
  = (Ret (st, data, table), s') ->
  locations ≤ length table /\ points ≤ length table
  /\ length table ≤ locations * points.
Proof.
  intros H.
  apply generate_facts in H
    as ((Hwf & Hbi & Hdeg) & (s2 & s3 & Ha) & op & eq & s4 & s5 & _ & _ & Hlen & _).
  apply assign_services_spec in Ha as (Hpairs & _).
  assert (length data = length (edge_pairs locations points (G st))) as Hd
    by (rewrite <- Hpairs; by rewrite length_fmap).
  rewrite Hlen, Hd. split; [|split].
  - by apply edge_pairs_length_locations.
  - by apply edge_pairs_length_points.
  - by apply edge_pairs_length_product.
Qed.

Lemma table_row_count_witness :
  exists st data table s',
    generate unit_root 5 2 1 2 (1 # 4) (start demo_tape) = (Ret (st, data, table), s')
    /\ 1 ≤ length table /\ 2 ≤ length table /\ length table ≤ 1 * 2.
Proof.
  destruct (generate unit_root 5 2 1 2 (1 # 4) (start demo_tape))
    as [[[[st data] table]|e|] s'] eqn:E.
  - exists st, data, table, s'. split; [reflexivity|].
    exact (table_row_count _ _ _ _ _ _ _ _ _ _ _ E).
  - vm_compute in E. discriminate E.
  - vm_compute in E. discriminate E.
Defined.

(** ** The range of the costs *)

Lemma to_unit_interval_range raw :
  (0 <= to_unit_interval raw)%Q /\ (to_unit_interval raw < 1)%Q.
Proof.
  unfold to_unit_interval, Qle, Qlt. cbn [Qnum Qden].
  pose proof (N.mod_lt raw (Npos two53) ltac:(discriminate)) as Hlt.
  apply N2Z.inj_lt in Hlt. rewrite positive_N_Z in Hlt.
  pose proof (N2Z.is_nonneg (raw mod Npos two53)). lia.
Qed.

Lemma scaled_cost_range lo hi raw :
  (0 <= lo <= hi)%Z ->
  (lo <= Qtrunc (inject_Z lo + inject_Z (hi - lo) * to_unit_interval raw) <= hi)%Z.
Proof.
  intros Hlh.
  pose proof (N.mod_lt raw (Npos two53) ltac:(discriminate)) as Hlt.
  apply N2Z.inj_lt in Hlt. rewrite positive_N_Z in Hlt.
  pose proof (N2Z.is_nonneg (raw mod Npos two53)) as Hge.
  unfold Qtrunc, to_unit_interval.
  cbn [Qnum Qden Qplus Qmult inject_Z].
  rewrite !Pos.mul_1_l.
  set (k := Z.of_N (raw mod Npos two53)) in *.
  set (d := Z.pos two53) in *.
  assert (0 < d)%Z as Hd by (unfold d; lia).
  rewrite Z.quot_div_nonneg by nia. split.
  - apply Z.div_le_lower_bound; [exact Hd|nia].
  - apply Z.div_le_upper_bound; [exact Hd|nia].
Qed.

Lemma random_draws_unit n s us s' :
  random_draws n s = (Ret us, s') ->
  forall u, u ∈ us -> exists raw, u = to_unit_interval raw.
Proof.
  revert s us s'. induction n as [|n IH]; intros s us s' H u Hu; simpl in H.
  - inversion H; subst. by apply elem_of_nil in Hu.
  - apply bind_Ret in H as (x & s1 & Hx & H).
    apply bind_Ret in H as (xs & s2 & Hxs & H). inversion H; subst.
    apply elem_of_cons in Hu as [->|Hu]; [|eauto].
    unfold random in Hx. inversion Hx. eauto.
Qed.

Lemma costs_range lo hi n s l s' :
  costs lo hi n s = (Ret l, s') -> (0 <= lo <= hi)%Z ->
  forall c, c ∈ l -> (lo <= c <= hi)%Z.
Proof.
  unfold costs, random_sample. intros H Hlh c Hc.
  apply bind_Ret in H as (us & s1 & Hus & H). inversion H; subst.
  apply list_elem_of_fmap in Hc as (u & -> & Hu).
  destruct (n <? 0)%Z; [discriminate|].
  destruct (random_draws_unit _ _ _ _ Hus u Hu) as [raw ->].
  by apply scaled_cost_range.
Qed.

(** X7: every opening cost of the table is an integer from 4000 to 5000
    and every equip cost an integer from 200 to 500. *)
Theorem table_costs_in_range cube_root budget services locations points f
    s st data table s' :
  generate cube_root budget services locations points f s
  = (Ret (st, data, table), s') ->
  forall row, row ∈ table ->
    (forall c, row_opening_costs row = Some c -> (4000 <= c <= 5000)%Z)
    /\ (forall c, row_equip_costs row = Some c -> (200 <= c <= 500)%Z).
Proof.
  intros H row Hrow.
  apply generate_facts in H
    as (_ & _ & op & eq & s4 & s5 & Hop & Heq & _ & Htab).
  apply list_elem_of_lookup in Hrow as [i Hi].
  destruct (Htab i row Hi) as (r & _ & ->). simpl. split.
  - intros c Hc. apply (costs_range _ _ _ _ _ _ Hop); [lia|].
    eapply list_elem_of_lookup_2. exact Hc.
  - intros c Hc. apply (costs_range _ _ _ _ _ _ Heq); [lia|].
    eapply list_elem_of_lookup_2. exact Hc.
Qed.

Lemma table_costs_in_range_witness :
  exists st data table s',
    generate unit_root 5 2 1 2 (1 # 4) (start demo_tape) = (Ret (st, data, table), s')
    /\ forall row, row ∈ table ->
         (forall c, row_opening_costs row = Some c -> (4000 <= c <= 5000)%Z)
         /\ (forall c, row_equip_costs row = Some c -> (200 <= c <= 500)%Z).
Proof.
  destruct (generate unit_root 5 2 1 2 (1 # 4) (start demo_tape))
    as [[[[st data] table]|e|] s'] eqn:E.
  - exists st, data, table, s'. split; [reflexivity|].
    exact (table_costs_in_range _ _ _ _ _ _ _ _ _ _ _ E).
  - vm_compute in E. discriminate E.
  - vm_compute in E. discriminate E.
Defined.

(** ** The unit square *)

Definition in_unit_square (c : coord) : Prop :=
  ((0 <= fst c)%Q /\ (fst c < 1)%Q) /\ ((0 <= snd c)%Q /\ (snd c < 1)%Q).

Definition all_in_unit_square (coords0 : gmap nat coord) : Prop :=
  forall i c, coords0 !! i = Some c -> in_unit_square c.

Lemma draw_coord_in_unit_square s c s' :
  draw_coord s = (Ret c, s') -> in_unit_square c.
Proof.
  rewrite draw_coord_Ret. intros H. inversion H; subst.
  split; apply to_unit_interval_range.
Qed.

Lemma all_in_unit_square_insert coords0 k c :
  all_in_unit_square coords0 -> in_unit_square c ->
  all_in_unit_square (<[k := c]> coords0).
Proof.
  intros Hall Hc i c' Hi. destruct (decide (k = i)) as [->|Hne].
  - rewrite lookup_insert_eq in Hi. by inversion Hi; subst.
  - rewrite lookup_insert_ne in Hi by done. eauto.
Qed.

Lemma sample_coords_in_unit_square fuel total md coords0 idx s coords' s' :
  sample_coords fuel total md coords0 idx s = (Ret coords', s') ->
  all_in_unit_square coords0 -> all_in_unit_square coords'.
Proof.
  revert coords0 idx s. induction fuel as [|fuel IH]; intros coords0 idx s H Hall;
    simpl in H; [discriminate|].
  destruct (idx <? total); [|by inversion H; subst].
  apply bind_Ret in H as (c & s1 & Hc%draw_coord_in_unit_square & H).
  destruct (too_close md coords0 c); [eauto|].
  eapply IH; [exact H|]. by apply all_in_unit_square_insert.
Qed.

Lemma resample_in_unit_square fuel md coords0 s c s' :
  resample fuel md coords0 s = (Ret c, s') -> in_unit_square c.
Proof.
  revert s. induction fuel as [|fuel IH]; intros s H; simpl in H; [discriminate|].
  apply bind_Ret in H as (c1 & s1 & Hc%draw_coord_in_unit_square & H).
  destruct (too_close md coords0 c1); [eauto|]. by inversion H; subst.
Qed.

Lemma relocate_in_unit_square fuel budget cls sr md others idx st s st' s' :
  relocate fuel budget cls sr md others idx st s = (Ret st', s') ->
  all_in_unit_square (coords st) -> all_in_unit_square (coords st').
Proof.
  revert st s. induction fuel as [|fuel IH]; intros st s H Hall; simpl in H;
    [discriminate|].
  apply bind_Ret in H as (nb & s1 & _ & H).
  destruct (length nb =? 0); [|by inversion H; subst].
  apply bind_Ret in H as (c & s2 & Hc%resample_in_unit_square & H).
  apply bind_Ret in H as (G' & s3 & _ & H).
  eapply IH; [exact H|]. simpl. by apply all_in_unit_square_insert.
Qed.

Lemma repair_in_unit_square budget sr md locations points st s st' s' :
  repair budget sr md locations points st s = (Ret st', s') ->
  all_in_unit_square (coords st) -> all_in_unit_square (coords st').
Proof.
  assert (forall cls nodes others st s st' s',
             repair_pass budget cls sr md nodes others st s = (Ret st', s') ->
             all_in_unit_square (coords st) -> all_in_unit_square (coords st'))
    as Hpass.
  { intros cls nodes others st0 s0 st1 s1 H Hall. revert st0 s0 st1 s1 Hall H.
    unfold repair_pass.
    apply (for_each_invariant _ (fun st2 => all_in_unit_square (coords st2))).
    intros st2 idx s2 st3 s3 _ Hall H. unfold repair_node in H.
    apply bind_Ret in H as (nb & s4 & _ & H).
    eapply relocate_in_unit_square; eauto. }
  unfold repair. intros H Hall.
  apply bind_Ret in H as (st1 & s1 & H1 & H2). eauto.
Qed.

(** X8: every node of a generated instance lies in the unit square: both
    coordinates are at least 0 and below 1, after the placement and after
    any number of relocations. *)
Theorem generated_points_in_unit_square cube_root budget services locations
    points f s st data table s' :
  generate cube_root budget services locations points f s
  = (Ret (st, data, table), s') ->
  forall i c, coords st !! i = Some c ->
    ((0 <= fst c)%Q /\ (fst c < 1)%Q) /\ ((0 <= snd c)%Q /\ (snd c < 1)%Q).
Proof.
  intros H.
  apply generate_Ret in H
    as (_ & coords0 & s1 & s2 & s3 & s4 & op & eq & H1 & H2 & _).
  eapply repair_in_unit_square; [exact H2|]. simpl.
  eapply sample_coords_in_unit_square; [exact H1|].
  intros i c Hi. by rewrite lookup_empty in Hi.
Qed.

Lemma generated_points_in_unit_square_witness :
  exists st data table s',
    generate unit_root 5 2 1 2 (1 # 4) (start demo_tape) = (Ret (st, data, table), s')
    /\ forall i c, coords st !! i = Some c ->
         ((0 <= fst c)%Q /\ (fst c < 1)%Q) /\ ((0 <= snd c)%Q /\ (snd c < 1)%Q).
Proof.
  destruct (generate unit_root 5 2 1 2 (1 # 4) (start demo_tape))
    as [[[[st data] table]|e|] s'] eqn:E.
  - exists st, data, table, s'. split; [reflexivity|].
    exact (generated_points_in_unit_square _ _ _ _ _ _ _ _ _ _ _ E).
  - vm_compute in E. discriminate E.
  - vm_compute in E. discriminate E.
Defined.

(** ** The graph is the service relation *)







Lemma remove_if_edge_keeps i j G0 u v :
  edge G0 u v -> ~ (u = i /\ v = j) -> ~ (u = j /\ v = i) ->
  edge (remove_if_edge i G0 j) u v.
Proof.
  intros He H1 H2. unfold remove_if_edge.
  destruct (has_edge G0 i j); [|exact He]. rewrite edge_remove_edge. tauto.
Qed.

Lemma node_remove_edges_within nodes G0 :
  node (remove_edges_within nodes G0) = node G0.
Proof.
  unfold remove_edges_within.
  apply (foldl_invariant _ (fun G1 => node G1 = node G0)); [|done].
  intros G1 i _ H1.
  apply (foldl_invariant _ (fun G2 => node G2 = node G0)); [|done].
  intros G2 j _ H2. destruct (has_edge G2 i j); [|exact H2]. exact H2.
Qed.

Lemma remove_edges_within_exact nodes G0 u v :
  edge (remove_edges_within nodes G0) u v <->
  edge G0 u v /\ ~ (u ∈ nodes /\ v ∈ nodes).
Proof.
  destruct (remove_edges_within_spec nodes G0) as (Hsub & _ & Hnone). split.
  - intros H. split; [by apply Hsub|]. intros [Hu Hv]. by apply (Hnone u v).
  - intros [He Hout]. unfold remove_edges_within.
    apply (foldl_invariant _ (fun G1 => edge G1 u v)); [|exact He].
    intros G1 i Hi H1.
    apply (foldl_invariant _ (fun G2 => edge G2 u v)); [|exact H1].
    intros G2 j Hj H2.
    change (edge (remove_if_edge i G2 j) u v).
    apply remove_if_edge_keeps; [exact H2| |]; intros [-> ->]; tauto.
Qed.

(** X9: the two loop nests of lines 59-67 remove the edges inside the
    class they scan and nothing else: an edge survives the scan of
    [nodes] exactly when one of its ends is outside of [nodes]; the
    positions of the nodes are not touched. *)
Theorem removal_is_exact nodes G0 :
  node (remove_edges_within nodes G0) = node G0
  /\ forall u v,
       edge (remove_edges_within nodes G0) u v <->
       edge G0 u v /\ ~ (u ∈ nodes /\ v ∈ nodes).
Proof.
  split; [apply node_remove_edges_within|]. intros u v.
  apply remove_edges_within_exact.
Qed.










(** ** The repair of a graph that needs none *)

Lemma relocate_connected fuel budget cls sr md others idx st s :
  1 ≤ degree (G st) idx ->
  relocate (S fuel) budget cls sr md others idx st s = (Ret st, s).
Proof.
  intros Hdeg. simpl. unfold bind, get_adj, degree, neighbors in *.
  destruct (adj (G st) !! idx) as [nb|]; simpl in *; [|lia].
  destruct nb; simpl in *; [lia|reflexivity].
Qed.

Lemma repair_node_connected budget cls sr md others st idx s :
  1 ≤ budget -> 1 ≤ degree (G st) idx ->
  repair_node budget cls sr md others st idx s = (Ret st, s).
Proof.
  intros Hb Hdeg. unfold repair_node.
  destruct budget as [|budget]; [lia|].
  assert (exists nb, get_adj (G st) idx s = (Ret nb, s)) as [nb Hnb].
  { unfold get_adj, degree, neighbors in *.
    destruct (adj (G st) !! idx) as [nb|]; simpl in *; [eauto|lia]. }
  eapply bind_Ret_intro; [exact Hnb|]. by apply relocate_connected.
Qed.

Lemma repair_pass_connected budget cls sr md nodes others st s :
  nodes = [] \/ 1 ≤ budget ->
  (forall u, u ∈ nodes -> 1 ≤ degree (G st) u) ->
  repair_pass budget cls sr md nodes others st s = (Ret st, s).
Proof.
  unfold repair_pass. intros Hb Hdeg.
  induction nodes as [|idx nodes IH]; simpl; [reflexivity|].
  destruct Hb as [Hb|Hb]; [discriminate|].
  eapply bind_Ret_intro.
  - apply repair_node_connected; [exact Hb|]. apply Hdeg. rewrite elem_of_cons; auto.
  - apply IH; [auto|]. intros u Hu. apply Hdeg. rewrite elem_of_cons; auto.
Qed.

Lemma repair_pass_Ret_budget budget cls sr md nodes others st s st' s' :
  repair_pass budget cls sr md nodes others st s = (Ret st', s') ->
  nodes = [] \/ 1 ≤ budget.
Proof.
  intros H. destruct nodes as [|idx nodes]; [auto|]. right.
  destruct budget as [|budget]; [|lia].
  unfold repair_pass in H. simpl in H.
  apply bind_Ret in H as (st1 & s1 & H & _). unfold repair_node in H.
  apply bind_Ret in H as (nb & s2 & _ & H). discriminate H.
Qed.

(** X11: on a graph in which every node has a neighbour the repair is the
    identity: no coordinate and no edge changes and nothing is drawn
    (each of the loops of lines 71 and 91 is left at its first test). *)
Theorem repair_of_connected_graph budget sr md locations points st s :
  1 ≤ budget ->
  (forall u, u < locations + points -> 1 ≤ degree (G st) u) ->
  repair budget sr md locations points st s = (Ret st, s).
Proof.
  intros Hb Hdeg. unfold repair.
  eapply bind_Ret_intro.
  - apply repair_pass_connected; [auto|].
    intros u Hu%elem_of_seq. apply Hdeg. lia.
  - apply repair_pass_connected; [auto|].
    intros u Hu%elem_of_seq. apply Hdeg. lia.
Qed.

Lemma repair_of_connected_graph_witness :
  1 ≤ 3
  /\ (forall u, u < 2 + 2 -> 1 ≤ degree (G (mkState ∅ square_graph)) u)
  /\ repair 3 1 (1 # 10) 2 2 (mkState ∅ square_graph) zeros
     = (Ret (mkState ∅ square_graph), zeros).
Proof.
  assert (forall u, u < 2 + 2 -> 1 ≤ degree (G (mkState ∅ square_graph)) u) as H.
  { intros u Hu.
    destruct u as [|[|[|[|u]]]]; [vm_compute; lia..|lia]. }
  split; [lia|]. split; [exact H|].
  apply (repair_of_connected_graph 3 1 (1 # 10) 2 2 (mkState ∅ square_graph) zeros);
    [lia|exact H].
Defined.

(** X12: the repair is idempotent: run again on the state and with the
    generator it ended with, it returns that state and draws nothing. *)
Theorem repair_idempotent budget sr md locations points st s st' s' :
  repair budget sr md locations points st s = (Ret st', s') ->
  repair budget sr md locations points st' s' = (Ret st', s').
Proof.
  intros H.
  pose proof (repair_connected _ _ _ _ _ _ _ _ _ H) as Hdeg.
  unfold repair in *.
  apply bind_Ret in H as (st1 & s1 & H1 & H2).
  apply repair_pass_Ret_budget in H1, H2.
  eapply bind_Ret_intro.
  - apply repair_pass_connected; [exact H1|].
    intros u Hu%elem_of_seq. apply Hdeg. lia.
  - apply repair_pass_connected; [exact H2|].
    intros u Hu%elem_of_seq. apply Hdeg. lia.
Qed.

Lemma repair_idempotent_witness :
  exists st' s',
    repair 5 (1 # 4) (1 # 40) 1 2 demo_state (start demo_draws) = (Ret st', s')
    /\ repair 5 (1 # 4) (1 # 40) 1 2 st' s' = (Ret st', s').
Proof.
  destruct (repair 5 (1 # 4) (1 # 40) 1 2 demo_state (start demo_draws))
    as [[st'|e|] s'] eqn:E.
  - exists st', s'. split; [reflexivity|].
    exact (repair_idempotent _ _ _ _ _ _ _ _ _ E).
  - vm_compute in E. discriminate E.
  - vm_compute in E. discriminate E.
Defined.

(** ** The nodes of the graph *)

(** The nodes of [G0] are [0, ..., n-1]. *)
Definition nodes_are (n : nat) (G0 : Graph) : Prop :=
  forall u, is_Some (adj G0 !! u) <-> u < n.

Lemma is_Some_adj_add_edge u v G0 w :
  is_Some (adj (add_edge u v G0) !! w) <-> is_Some (adj G0 !! w) \/ w = u \/ w = v.
Proof.
  unfold add_edge; simpl. rewrite !lookup_insert_is_Some'. split.
  - intros [->|[->|?]]; auto.
  - intros [?|[->| ->]]; auto.
Qed.

Lemma is_Some_adj_remove_edge u v G0 w :
  is_Some (adj (remove_edge u v G0) !! w) <-> is_Some (adj G0 !! w).
Proof. unfold remove_edge; simpl. by rewrite !lookup_alter_is_Some. Qed.

Lemma nodes_are_add_edge n u v G0 :
  u < n -> v < n -> nodes_are n G0 -> nodes_are n (add_edge u v G0).
Proof.
  intros Hu Hv H w. rewrite is_Some_adj_add_edge, (H w). split; [|auto].
  intros [?|[->| ->]]; auto.
Qed.

Lemma nodes_are_empty_graph n pos : nodes_are n (empty_graph n pos).
Proof.
  intros u. unfold empty_graph; simpl. split.
  - intros [l Hl]. apply elem_of_list_to_map_2 in Hl.
    apply list_elem_of_fmap in Hl as (i & E & Hi%elem_of_seq). inversion E. lia.
  - intros Hu.
    destruct (list_to_map (M := gmap nat (list nat))
                ((fun i => (i, [])) <$> seq 0 n) !! u) eqn:E; [eauto|].
    exfalso. apply not_elem_of_list_to_map_2 in E. apply E.
    rewrite <- list_fmap_compose. apply list_elem_of_fmap. exists u.
    split; [done|]. apply elem_of_seq. lia.
Qed.

Lemma nodes_are_random_geometric_graph n radius pos :
  nodes_are n (random_geometric_graph n radius pos).
Proof.
  unfold random_geometric_graph.
  apply (foldl_invariant _ (nodes_are n)); [|apply nodes_are_empty_graph].
  intros G1 [u v] (Hu & Hv & _)%elem_of_geometric_pairs H. simpl.
  by apply nodes_are_add_edge.
Qed.

Lemma nodes_are_remove_edges_within n nodes G0 :
  nodes_are n G0 -> nodes_are n (remove_edges_within nodes G0).
Proof.
  unfold remove_edges_within. apply (foldl_invariant _ (nodes_are n)).
  intros G1 i _. apply (foldl_invariant _ (nodes_are n)).
  intros G2 j _ H. destruct (has_edge G2 i j); [|exact H].
  intros w. by rewrite is_Some_adj_remove_edge.
Qed.

Lemma nodes_are_update_neighbors n cls sr others idx c G0 s G' s' :
  idx < n -> (forall o, o ∈ others -> o < n) ->
  update_neighbors cls sr others idx c G0 s = (Ret G', s') ->
  nodes_are n G0 -> nodes_are n G'.
Proof.
  intros Hidx Hothers. unfold update_neighbors. intros H Hn. revert G0 s G' s' Hn H.
  apply (for_each_invariant _ (nodes_are n)).
  intros G1 o s1 G2 s2 Ho Hn H.
  apply bind_Ret in H as (p & s3 & _ & H).
  destruct (distance_le p c sr); inversion H; subst; [|exact Hn].
  destruct cls; apply nodes_are_add_edge; auto.
Qed.

Lemma nodes_are_relocate n fuel budget cls sr md others idx st s st' s' :
  idx < n -> (forall o, o ∈ others -> o < n) ->
  relocate fuel budget cls sr md others idx st s = (Ret st', s') ->
  nodes_are n (G st) -> nodes_are n (G st').
Proof.
  intros Hidx Hothers. revert st s.
  induction fuel as [|fuel IH]; intros st s H Hn; simpl in H; [discriminate|].
  apply bind_Ret in H as (nb & s1 & _ & H).
  destruct (length nb =? 0); [|by inversion H; subst].
  apply bind_Ret in H as (c & s2 & _ & H).
  apply bind_Ret in H as (G' & s3 & HG' & H).
  eapply IH; [exact H|]. simpl.
  eapply nodes_are_update_neighbors; eauto.
Qed.

Lemma nodes_are_repair n budget sr md locations points st s st' s' :
  n = locations + points ->
  repair budget sr md locations points st s = (Ret st', s') ->
  nodes_are n (G st) -> nodes_are n (G st').
Proof.
  intros ->.
  assert (forall cls nodes others st s st' s',
             (forall o, o ∈ nodes -> o < locations + points) ->
             (forall o, o ∈ others -> o < locations + points) ->
             repair_pass budget cls sr md nodes others st s = (Ret st', s') ->
             nodes_are (locations + points) (G st) ->
             nodes_are (locations + points) (G st')) as Hpass.
  { intros cls nodes others st0 s0 st1 s1 Hnodes Hothers H Hn.
    revert st0 s0 st1 s1 Hn H. unfold repair_pass.
    apply (for_each_invariant _ (fun st2 => nodes_are (locations + points) (G st2))).
    intros st2 idx s2 st3 s3 Hin Hn H. unfold repair_node in H.
    apply bind_Ret in H as (nb & s4 & _ & H).
    eapply nodes_are_relocate; eauto. }
  unfold repair. intros H Hn.
  apply bind_Ret in H as (st1 & s1 & H1 & H2).
  eapply Hpass in H1; [| | |exact Hn];
    [|intros o Ho%elem_of_seq; lia|intros o Ho%elem_of_seq; lia].
  eapply Hpass in H2; [exact H2| | |exact H1];
    [intros o Ho%elem_of_seq; lia|intros o Ho%elem_of_seq; lia].
Qed.

Lemma nodes_are_size n G0 : nodes_are n G0 -> size (adj G0) = n.
Proof.
  intros H. rewrite <- size_dom.
  assert (dom (adj G0) = set_seq (C := gset nat) 0 n) as ->.
  { apply set_eq. intros u. rewrite elem_of_dom, elem_of_set_seq, (H u). lia. }
  apply size_set_seq.
Qed.

Lemma generate_nodes cube_root budget services locations points f
    s st data table s' :
  generate cube_root budget services locations points f s
  = (Ret (st, data, table), s') ->
  nodes_are (locations + points) (G st).
Proof.
  intros H.
  apply generate_Ret in H
    as (_ & coords0 & s1 & s2 & s3 & s4 & op & eq & _ & H2 & _).
  eapply nodes_are_repair; [reflexivity|exact H2|]. simpl.
  unfold filtered_graph.
  apply nodes_are_remove_edges_within, nodes_are_remove_edges_within,
    nodes_are_random_geometric_graph.
Qed.

(** ** Lines 109-119: the centrality diagnostics *)

(** [nx.degree_centrality(G)[u]]: the degree of [u] over [len(G) - 1]
    (networkx, modelled from its documentation; the graph of line 109 has
    at least two nodes, see [generate_nodes]). *)
Definition degree_centrality (G0 : Graph) (u : nat) : Q :=
  (inject_Z (Z.of_nat (degree G0 u))
   / inject_Z (Z.of_nat (size (adj G0)) - 1))%Q.

(** Lines 110-113 *)
Definition max_centrality (locations : nat) (G0 : Graph) : Q :=
  foldl (fun m loc_idx =>
           if Qlt_bool m (degree_centrality G0 loc_idx)
           then degree_centrality G0 loc_idx
           else m)
        0%Q (seq 0 locations).

(** Line 116: is the warning "single location can service more than half
    of all nodes" printed? *)
Definition warns_more_than_half (locations : nat) (G0 : Graph) : bool :=
  Qlt_bool 0.5 (max_centrality locations G0).

(** Line 118: is the warning "location with most demand points can
    service only ..." printed? *)
Definition warns_few_points (locations : nat) (G0 : Graph) : bool :=
  Qlt_bool (max_centrality locations G0) (2 / inject_Z (Z.of_nat locations)).

Lemma Qlt_bool_iff a b : Qlt_bool a b = true <-> (a < b)%Q.
Proof.
  unfold Qlt_bool. rewrite negb_true_iff. split.
  - intros H. apply Qnot_le_lt. intros Hle. apply Qle_bool_iff in Hle. congruence.
  - intros H. apply not_true_is_false. rewrite Qle_bool_iff.
    by apply Qlt_not_le.
Qed.

Lemma frac_lt_frac a m b k :
  (0 < m)%Z -> (0 < k)%Z ->
  (inject_Z a / inject_Z m < inject_Z b / inject_Z k)%Q <-> (a * k < b * m)%Z.
Proof.
  intros Hm Hk. destruct m as [|m|m], k as [|k|k]; try lia.
  unfold Qlt, Qdiv, Qmult, Qinv, inject_Z. cbn [Qnum Qden].
  rewrite !Pos.mul_1_l, !Z.mul_1_r. reflexivity.
Qed.

Lemma frac_le_frac a m b k :
  (0 < m)%Z -> (0 < k)%Z ->
  (inject_Z a / inject_Z m <= inject_Z b / inject_Z k)%Q <-> (a * k <= b * m)%Z.
Proof.
  intros Hm Hk. destruct m as [|m|m], k as [|k|k]; try lia.
  unfold Qle, Qdiv, Qmult, Qinv, inject_Z. cbn [Qnum Qden].
  rewrite !Pos.mul_1_l, !Z.mul_1_r. reflexivity.
Qed.

Lemma half_lt_frac a m :
  (0 < m)%Z -> (0.5 < inject_Z a / inject_Z m)%Q <-> (m < 2 * a)%Z.
Proof.
  intros Hm. destruct m as [|m|m]; try lia.
  unfold Qlt, Qdiv, Qmult, Qinv, inject_Z. cbn [Qnum Qden].
  rewrite !Pos.mul_1_l, !Z.mul_1_r. lia.
Qed.

Lemma frac_lt_two_over a m k :
  (0 < m)%Z -> (0 < k)%Z ->
  (inject_Z a / inject_Z m < 2 / inject_Z k)%Q <-> (a * k < 2 * m)%Z.
Proof. intros Hm Hk. by apply (frac_lt_frac a m 2 k). Qed.

(** The loop of lines 111-113 computes a maximum. *)
Lemma max_loop_spec (g : nat -> Q) (l : list nat) :
  forall m0,
    let r := foldl (fun m x => if Qlt_bool m (g x) then g x else m) m0 l in
    (m0 <= r)%Q
    /\ (forall x, x ∈ l -> (g x <= r)%Q)
    /\ (r = m0 \/ exists x, x ∈ l /\ r = g x).
Proof.
  induction l as [|y l IH]; intros m0; simpl.
  - split; [apply Qle_refl|]. split; [|auto].
    intros x Hx. by apply elem_of_nil in Hx.
  - set (m1 := if Qlt_bool m0 (g y) then g y else m0).
    destruct (IH m1) as (Hge & Hall & Hone).
    assert ((m0 <= m1)%Q /\ (g y <= m1)%Q) as [H0 Hy].
    { unfold m1. destruct (Qlt_bool m0 (g y)) eqn:E.
      - apply Qlt_bool_iff in E. split; [by apply Qlt_le_weak|apply Qle_refl].
      - split; [apply Qle_refl|]. apply Qnot_lt_le. intros Hlt.
        apply Qlt_bool_iff in Hlt. congruence. }
    split; [eapply Qle_trans; eauto|]. split.
    + intros x [->|Hx]%elem_of_cons; [eapply Qle_trans; eauto|auto].
    + destruct Hone as [->|(x & Hx & ->)].
      * unfold m1. destruct (Qlt_bool m0 (g y)); [right|left; done].
        exists y. split; [rewrite elem_of_cons; auto|done].
      * right. exists x. split; [rewrite elem_of_cons; auto|done].
Qed.

Lemma degree_location_le_points locations points G0 l :
  wf G0 -> bipartite locations points G0 -> l < locations ->
  degree G0 l ≤ points.
Proof.
  intros [Hnd _] Hbi Hl. unfold degree.
  apply (Nat.le_trans _ (length (seq locations points)));
    [|by rewrite length_seq].
  apply submseteq_length, NoDup_submseteq; [apply Hnd|].
  intros v Hv. apply elem_of_seq.
  destruct (Hbi l v Hv) as [[_ ?]|[_ ?]]; lia.
Qed.

(** What the diagnostics see in a generated instance. *)
Lemma generate_centrality cube_root budget services locations points f
    s st data table s' :
  generate cube_root budget services locations points f s
  = (Ret (st, data, table), s') ->
  1 ≤ locations ->
  1 ≤ points
  /\ (forall l, degree_centrality (G st) l
                = (inject_Z (Z.of_nat (degree (G st) l))
                   / inject_Z (Z.of_nat (locations + points) - 1))%Q)
  /\ exists l, l < locations
       /\ max_centrality locations (G st) = degree_centrality (G st) l
       /\ (forall l', l' < locations -> degree (G st) l' ≤ degree (G st) l)
       /\ 1 ≤ degree (G st) l ≤ points.
Proof.
  intros H Hloc.
  pose proof (generate_nodes _ _ _ _ _ _ _ _ _ _ _ H) as Hnodes.
  apply nodes_are_size in Hnodes.
  apply generate_facts in H as ((Hwf & Hbi & Hdeg) & _).
  assert (1 ≤ points) as Hpts.
  { pose proof (Hdeg 0 ltac:(lia)) as [v Hv]%degree_pos.
    destruct (Hbi 0 v Hv) as [[_ ?]|[_ ?]]; lia. }
  assert (forall l, degree_centrality (G st) l
                    = (inject_Z (Z.of_nat (degree (G st) l))
                       / inject_Z (Z.of_nat (locations + points) - 1))%Q) as Hdc.
  { intros l. unfold degree_centrality. by rewrite Hnodes. }
  split; [exact Hpts|]. split; [exact Hdc|].
  assert (forall a b, (degree_centrality (G st) a <= degree_centrality (G st) b)%Q
                      <-> degree (G st) a ≤ degree (G st) b) as Hcmp.
  { intros a b. rewrite !Hdc, frac_le_frac by lia. nia. }
  destruct (max_loop_spec (degree_centrality (G st)) (seq 0 locations) 0%Q)
    as (Hge & Hall & Hone).
  fold (max_centrality locations (G st)) in Hge, Hall, Hone.
  assert (0 < degree_centrality (G st) 0)%Q as Hpos.
  { rewrite Hdc. change 0%Q with (inject_Z 0 / inject_Z 1)%Q.
    apply frac_lt_frac; [lia|lia|]. pose proof (Hdeg 0 ltac:(lia)). lia. }
  destruct Hone as [Hzero|(l & Hl%elem_of_seq & Hmax)].
  { exfalso. pose proof (Hall 0 ltac:(apply elem_of_seq; lia)) as H0.
    rewrite Hzero in H0. by apply (Qlt_not_le _ _ Hpos). }
  exists l. split; [lia|]. split; [exact Hmax|]. split.
  - intros l' Hl'. apply Hcmp. rewrite <- Hmax. apply Hall, elem_of_seq. lia.
  - split; [apply Hdeg; lia|].
    eapply degree_location_le_points; eauto. lia.
Qed.



(** X14: the first warning is printed for a generated instance exactly
    when some location is joined to more than half of the other nodes. *)
Theorem half_warning_iff cube_root budget services locations points f
    s st data table s' :
  generate cube_root budget services locations points f s
  = (Ret (st, data, table), s') ->
  1 ≤ locations ->
  (warns_more_than_half locations (G st) = true <->
   exists l, l < locations /\ locations + points - 1 < 2 * degree (G st) l).
Proof.
  intros H Hloc.
  destruct (generate_centrality _ _ _ _ _ _ _ _ _ _ _ H Hloc)
    as (Hpts & Hdc & l & Hl & Hmax & Hbest & Hrange).
  unfold warns_more_than_half. rewrite Qlt_bool_iff, Hmax, Hdc.
  rewrite half_lt_frac by lia. split.
  - intros Hlt. exists l. split; [exact Hl|lia].
  - intros (l' & Hl' & Hlt). pose proof (Hbest l' Hl'). lia.
Qed.

Lemma half_warning_iff_witness :
  exists st data table s',
    generate unit_root 5 2 1 2 (1 # 4) (start demo_tape) = (Ret (st, data, table), s')
    /\ 1 ≤ 1
    /\ (warns_more_than_half 1 (G st) = true <->
        exists l, l < 1 /\ 1 + 2 - 1 < 2 * degree (G st) l).
Proof.
  destruct (generate unit_root 5 2 1 2 (1 # 4) (start demo_tape))
    as [[[[st data] table]|e|] s'] eqn:E.
  - exists st, data, table, s'. split; [reflexivity|]. split; [lia|].
    apply (half_warning_iff _ _ _ _ _ _ _ _ _ _ _ E). lia.
  - vm_compute in E. discriminate E.
  - vm_compute in E. discriminate E.
Defined.

(** X15: with a single location both warnings are printed for every
    generated instance: the location is joined to all the demand points,
    so its centrality is 1, which is above 0.5 and below [2 / 1]. *)
Theorem single_location_both_warnings cube_root budget services points f
    s st data table s' :
  generate cube_root budget services 1 points f s
  = (Ret (st, data, table), s') ->
  degree (G st) 0 = points
  /\ warns_more_than_half 1 (G st) = true
  /\ warns_few_points 1 (G st) = true.
Proof.
  intros H.
  destruct (generate_centrality _ _ _ _ _ _ _ _ _ _ _ H ltac:(lia))
    as (Hpts & Hdc & l & Hl & Hmax & _ & Hrange).
  assert (l = 0) as -> by lia.
  apply generate_facts in H as ((Hwf & Hbi & Hdeg) & _).
  assert (degree (G st) 0 = points) as Hall.
  { apply Nat.le_antisymm; [apply Hrange|].
    unfold degree.
    apply (Nat.le_trans _ (length (seq 1 points))); [by rewrite length_seq|].
    apply submseteq_length, NoDup_submseteq; [apply NoDup_seq|].
    intros d Hd%elem_of_seq. destruct Hwf as [_ Hsym]. apply Hsym.
    pose proof (Hdeg d ltac:(lia)) as [v Hv]%degree_pos.
    destruct (Hbi d v Hv) as [[? ?]|[? ?]]; [lia|].
    by replace v with 0 in Hv by lia. }
  split; [exact Hall|].
  unfold warns_more_than_half, warns_few_points.
  rewrite !Qlt_bool_iff, Hmax, Hdc, Hall.
  split; [apply half_lt_frac; lia|].
  apply frac_lt_two_over; lia.
Qed.

Lemma single_location_both_warnings_witness :
  exists st data table s',
    generate unit_root 5 2 1 2 (1 # 4) (start demo_tape) = (Ret (st, data, table), s')
    /\ degree (G st) 0 = 2
    /\ warns_more_than_half 1 (G st) = true
    /\ warns_few_points 1 (G st) = true.
Proof.
  destruct (generate unit_root 5 2 1 2 (1 # 4) (start demo_tape))
    as [[[[st data] table]|e|] s'] eqn:E.
  - exists st, data, table, s'. split; [reflexivity|].
    exact (single_location_both_warnings _ _ _ _ _ _ _ _ _ _ E).
  - vm_compute in E. discriminate E.
  - vm_compute in E. discriminate E.
Defined.

(** X16: with four locations or more the two warnings exclude each other,
    whatever the graph: the second asks for a highest centrality below
    [2 / locations], which is then at most 0.5. *)
Theorem warnings_exclusive_from_four_locations locations G0 :
  4 ≤ locations ->
  ~ (warns_more_than_half locations G0 = true
     /\ warns_few_points locations G0 = true).
Proof.
  intros Hloc [H1 H2]. unfold warns_more_than_half, warns_few_points in *.
  apply Qlt_bool_iff in H1, H2.
  pose proof (Qlt_trans _ _ _ H1 H2) as H.
  destruct (Z.of_nat locations) as [|q|q] eqn:E; try lia.
  unfold Qlt, Qdiv, Qmult, Qinv, inject_Z in H. cbn [Qnum Qden] in H. lia.
Qed.

Lemma warnings_exclusive_from_four_locations_witness :
  4 ≤ 4
  /\ ~ (warns_more_than_half 4 (empty_graph 8 ∅) = true
        /\ warns_few_points 4 (empty_graph 8 ∅) = true).
Proof.
  split; [lia|].
  apply (warnings_exclusive_from_four_locations 4 (empty_graph 8 ∅)). lia.
Defined.

(** ** Lines 189-193: the path of the output file *)

From Stdlib Require DecimalString DecimalZ DecimalPos.
From Stdlib Require Import Ascii.
From stdpp Require Import strings.

(** [str(n)] of a Python int: its decimal digits, after a minus sign if it
    is negative. *)
Definition str (z : Z) : string :=
  DecimalString.NilZero.string_of_int (Z.to_int z).

(** Line 191 *)
Definition default_filename (services locations points : Z) : string :=
  "testproblem_geometric_F" +:+ str services +:+ "L" +:+ str locations
  +:+ "U" +:+ str points +:+ ".xlsx".

(** Lines 189-193: [filename] is the value of [--filename] ([''] when the
    option is absent), [dir] the value of [--dir]. *)
Definition output_path (dir filename : string) (services locations points : Z)
    : string :=
  let filename :=
    if String.length filename =? 0
    then default_filename services locations points
    else filename in
  dir +:+ "/" +:+ filename.

Fixpoint occurs (c : ascii) (s : string) : Prop :=
  match s with
  | EmptyString => False
  | String a s' => a = c \/ occurs c s'
  end.

Definition is_digit (c : ascii) : Prop :=
  In c ["0"; "1"; "2"; "3"; "4"; "5"; "6"; "7"; "8"; "9"]%char.

Lemma digits_of_uint d c :
  occurs c (DecimalString.NilEmpty.string_of_uint d) -> is_digit c.
Proof.
  induction d; simpl; try tauto;
    (intros [<-|H]; [unfold is_digit; simpl; tauto|auto]).
Qed.

Lemma chars_of_str z c : occurs c (str z) -> is_digit c \/ c = "-"%char.
Proof.
  unfold str, DecimalString.NilZero.string_of_int,
    DecimalString.NilZero.string_of_uint.
  destruct (Z.to_int z) as [d|d].
  - destruct d; simpl;
      try (intros [<-|H]; [left; unfold is_digit; simpl; tauto
                          |left; by apply digits_of_uint in H]).
    intros [<-|[]]. left. unfold is_digit; simpl; tauto.
  - simpl. intros [<-|H]; [by right|]. left.
    destruct d; simpl in H;
      try (destruct H as [<-|H]; [unfold is_digit; simpl; tauto
                                 |by apply digits_of_uint in H]).
    destruct H as [<-|[]]. unfold is_digit; simpl; tauto.
Qed.

Lemma str_inj z z' : str z = str z' -> z = z'.
Proof.
  unfold str. intros H. apply DecimalZ.to_int_inj.
  assert (forall y, Z.to_int y <> Decimal.Pos Decimal.Nil
                    /\ Z.to_int y <> Decimal.Neg Decimal.Nil) as Hnn.
  { intros [|p|p]; split; try discriminate; simpl; intros E; inversion E;
      by eapply DecimalPos.Unsigned.to_uint_nonnil. }
  apply (f_equal DecimalString.NilZero.int_of_string) in H.
  rewrite !DecimalString.NilZero.isi in H by apply Hnn. by inversion H.
Qed.

Lemma append_inj_l (p a b : string) : p +:+ a = p +:+ b -> a = b.
Proof. induction p as [|c p IH]; simpl; [done|]. intros H. inversion H. auto. Qed.

(** Two strings cut at a separator that occurs in neither head. *)
Lemma append_separator_inj c (a1 : string) :
  forall a2 r1 r2,
    ~ occurs c a1 -> ~ occurs c a2 ->
    a1 +:+ String c r1 = a2 +:+ String c r2 -> a1 = a2 /\ r1 = r2.
Proof.
  induction a1 as [|x a1 IH]; intros [|y a2] r1 r2 H1 H2 H; simpl in *.
  - by inversion H.
  - inversion H; subst. tauto.
  - inversion H; subst. tauto.
  - inversion H; subst. destruct (IH a2 r1 r2) as [-> ->]; tauto.
Qed.

Lemma str_without c z : ~ is_digit c -> c <> "-"%char -> ~ occurs c (str z).
Proof. intros Hd Hm H. apply chars_of_str in H as [?|?]; auto. Qed.

Lemma default_filename_inj s l p s' l' p' :
  default_filename s l p = default_filename s' l' p' ->
  s = s' /\ l = l' /\ p = p'.
Proof.
  unfold default_filename. intros H. apply append_inj_l in H.
  assert (forall c, In c ["L"; "U"; "."]%char -> ~ is_digit c /\ c <> "-"%char)
    as Hsep.
  { intros c Hc. simpl in Hc. unfold is_digit. simpl.
    destruct Hc as [<-|[<-|[<-|[]]]]; split; try discriminate;
      intros Hd; repeat (destruct Hd as [Hd|Hd]; [discriminate Hd|]); exact Hd. }
  apply (append_separator_inj "L"%char) in H as [Hs H];
    [|apply str_without; apply Hsep; simpl; auto..].
  apply (append_separator_inj "U"%char) in H as [Hl H];
    [|apply str_without; apply Hsep; simpl; auto..].
  apply (append_separator_inj "."%char) in H as [Hp _];
    [|apply str_without; apply Hsep; simpl; auto..].
  auto using str_inj.
Qed.

(** X17: without [--filename], two configurations are written to the same
    path of one directory only if they have the same numbers of services,
    locations and demand points. *)
Theorem default_path_identifies_configuration dir s l p s' l' p' :
  output_path dir "" s l p = output_path dir "" s' l' p' ->
  s = s' /\ l = l' /\ p = p'.
Proof.
  unfold output_path. simpl. intros H.
  apply append_inj_l, append_inj_l in H. by apply default_filename_inj.
Qed.

Lemma default_path_identifies_configuration_witness :
  output_path "." "" 2 3 4 = "./testproblem_geometric_F2L3U4.xlsx"
  /\ output_path "." "" 2 3 4 = output_path "." "" (1 + 1) 3 (2 * 2)
  /\ (2 = 1 + 1 /\ 3 = 3 /\ 4 = 2 * 2)%Z.
Proof.
  split; [reflexivity|]. split; [reflexivity|].
  apply (default_path_identifies_configuration "." 2 3 4 (1 + 1) 3 (2 * 2)).
  reflexivity.
Defined.
